(** * gofetch-audio: download orchestration and progress aggregation

    A shallow embedding of the Go packages [downloader] (the worker
    [Download] with its three regular expressions) and [tui] (the Bubble
    Tea model with [NewModel], [Init], [startDownloads] and
    [handleProgress]), and the properties of the orchestration core that
    hold or fail on them.

    Conventions.
    - Go [int] is the 64-bit two's-complement integer of the targets the
      Makefile builds (amd64, arm64): a [Z] kept in range by [wrap64]
      after [++], [--] and [+].
    - Go [float64] is Rocq's primitive binary64 [float].
    - Go [string] is a byte string: [string] of [ascii].
    - Go [error] is [option string]: [None] is [nil], [Some msg] a non-nil
      error with message [msg].
    - [[]Item] indexed and updated in place is a [list Item] with stdpp's
      lookup [!!] and [alter], behind the source's own bounds check. *)

From Stdlib Require Import ZArith String Ascii List Bool Floats Lia.
From stdpp Require Import base list.
Import ListNotations.

Local Open Scope string_scope.
Local Open Scope list_scope.
Local Open Scope Z_scope.

(** ** Machine integers *)

Module Int.

Definition wrap64 (x : Z) : Z := (x + 2 ^ 63) mod 2 ^ 64 - 2 ^ 63.

Definition min_int : Z := - 2 ^ 63.
Definition max_int : Z := 2 ^ 63 - 1.

(** [x++] and [x--] on an [int]. *)
Definition incr (x : Z) : Z := wrap64 (x + 1).
Definition decr (x : Z) : Z := wrap64 (x - 1).

End Int.

(** ** package downloader: data *)

Inductive Status : Type :=
| StatusPending
| StatusDownloading
| StatusConverting
| StatusCompleted
| StatusFailed.

Definition Status_eqb (a b : Status) : bool :=
  match a, b with
  | StatusPending, StatusPending
  | StatusDownloading, StatusDownloading
  | StatusConverting, StatusConverting
  | StatusCompleted, StatusCompleted
  | StatusFailed, StatusFailed => true
  | _, _ => false
  end.

Definition error : Type := option string.

Record ProgressMsg : Type := mkMsg {
  ID : Z;
  MsgStatus : Status;
  MsgProgress : float;
  MsgTitle : string;
  MsgError : error
}.

Record Config : Type := mkConfig {
  OutputDir : string;
  Format : string;
  Quality : string
}.

(** ** Regular expressions

    The three patterns of [Download] use literals, the classes [\s], [\d]
    and [.], the quantifiers [+], [*] and [?] on a single character,
    capture groups and one alternation.  Go's [regexp] returns the
    leftmost match and, among those, the one a backtracking search finds
    first; [matchRe] is that backtracking search, written with a
    continuation, and [FindStringSubmatch] tries the start positions from
    the left.  Matching is by byte: every delimiter in the patterns is
    ASCII, so the captures are the ones the rune-based matcher gives. *)

Module Regexp.

Inductive atom : Type :=
| AChar (c : ascii)      (* a literal byte, also an escaped one: \[ \] \. *)
| ASpace                 (* \s = [\t\n\f\r ] *)
| ADigit                 (* \d = [0-9] *)
| AAny.                  (* .  = any byte but \n *)

Inductive regex : Type :=
| RAtom (a : atom)
| RStr (s : string)               (* a run of literal bytes *)
| RStar (a : atom)                (* a*  greedy *)
| RPlus (a : atom)                (* a+  greedy *)
| ROpt (a : atom)                 (* a?  greedy *)
| RSeq (r1 r2 : regex)
| RAlt (r1 r2 : regex)
| RGroup (i : nat) (r : regex).   (* capture group number i *)

Definition isSpace (c : ascii) : bool :=
  let n := nat_of_ascii c in
  (Nat.eqb n 9 || Nat.eqb n 10 || Nat.eqb n 12 || Nat.eqb n 13 || Nat.eqb n 32)%bool.

Definition isDigit (c : ascii) : bool :=
  let n := nat_of_ascii c in (Nat.leb 48 n && Nat.leb n 57)%bool.

Definition atomMatches (a : atom) (c : ascii) : bool :=
  match a with
  | AChar d => Ascii.eqb d c
  | ASpace => isSpace c
  | ADigit => isDigit c
  | AAny => negb (Nat.eqb (nat_of_ascii c) 10)
  end.

Definition caps : Type := list (nat * string).

Fixpoint getCap (i : nat) (cs : caps) : string :=
  match cs with
  | [] => ""
  | (j, s) :: tl => if Nat.eqb i j then s else getCap i tl
  end.

Fixpoint takeStr (n : nat) (s : string) : string :=
  match n, s with
  | S n', String c t => String c (takeStr n' t)
  | _, _ => ""
  end.

(** The text consumed between the input [s] and its suffix [rest]. *)
Definition consumed (s rest : string) : string :=
  takeStr (String.length s - String.length rest)%nat s.

Fixpoint matchStr {R : Type} (lit s : string) (k : string -> option R) : option R :=
  match lit with
  | EmptyString => k s
  | String c lit' =>
      match s with
      | String d t => if Ascii.eqb c d then matchStr lit' t k else None
      | EmptyString => None
      end
  end.

(** Greedy repetition: the longest run first, then one byte less, ... *)
Fixpoint matchStar {R : Type} (a : atom) (s : string) (k : string -> option R) : option R :=
  match s with
  | String c t =>
      if atomMatches a c then
        match matchStar a t k with
        | Some r => Some r
        | None => k s
        end
      else k s
  | EmptyString => k s
  end.

Fixpoint matchRe {R : Type} (r : regex) (s : string) (cs : caps)
    (k : string -> caps -> option R) : option R :=
  match r with
  | RAtom a =>
      match s with
      | String c t => if atomMatches a c then k t cs else None
      | EmptyString => None
      end
  | RStr lit => matchStr lit s (fun t => k t cs)
  | RStar a => matchStar a s (fun t => k t cs)
  | RPlus a =>
      match s with
      | String c t => if atomMatches a c then matchStar a t (fun u => k u cs) else None
      | EmptyString => None
      end
  | ROpt a =>
      match s with
      | String c t =>
          if atomMatches a c then
            match k t cs with
            | Some x => Some x
            | None => k s cs
            end
          else k s cs
      | EmptyString => k s cs
      end
  | RSeq r1 r2 => matchRe r1 s cs (fun t cs1 => matchRe r2 t cs1 k)
  | RAlt r1 r2 =>
      match matchRe r1 s cs k with
      | Some x => Some x
      | None => matchRe r2 s cs k
      end
  | RGroup i r1 => matchRe r1 s cs (fun t cs1 => k t ((i, consumed s t) :: cs1))
  end.

Fixpoint numGroups (r : regex) : nat :=
  match r with
  | RSeq r1 r2 | RAlt r1 r2 => numGroups r1 + numGroups r2
  | RGroup _ r1 => S (numGroups r1)
  | _ => 0
  end%nat.

(** A match anchored at the start of [s]: the whole match followed by the
    texts of groups 1..n. *)
Definition matchHere (r : regex) (s : string) : option (list string) :=
  matchRe r s [] (fun rest cs =>
    Some (consumed s rest :: map (fun i => getCap i cs) (seq 1 (numGroups r)))).

(** [re.FindStringSubmatch(s)]: [nil] (the empty list) when nothing
    matches. *)
Fixpoint FindStringSubmatch (r : regex) (s : string) : list string :=
  match matchHere r s with
  | Some ms => ms
  | None =>
      match s with
      | String _ t => FindStringSubmatch r t
      | EmptyString => []
      end
  end.

(** [re.MatchString(s)]. *)
Definition MatchString (r : regex) (s : string) : bool :=
  match FindStringSubmatch r s with
  | [] => false
  | _ :: _ => true
  end.

End Regexp.

Import Regexp.

(** Concatenation of the pieces of a pattern, left to right. *)
Definition cat (rs : list regex) : regex := foldr RSeq (RStr "") rs.

(** The pattern  \[download\]\s+( \d+\.?\d* )%  (the blanks inside the
    group are not in the source; they keep this comment well formed). *)
Definition downloadRe : regex :=
  cat [ RStr "[download]"; RPlus ASpace;
        RGroup 1 (cat [RPlus ADigit; ROpt (AChar "."); RStar ADigit]);
        RStr "%" ].

(** The pattern  Destination:\s+.*/(.+)\.(webm|m4a|mp3|opus|wav)  *)
Definition destRe : regex :=
  cat [ RStr "Destination:"; RPlus ASpace; RStar AAny; RStr "/";
        RGroup 1 (RPlus AAny); RAtom (AChar ".");
        RGroup 2 (RAlt (RStr "webm") (RAlt (RStr "m4a") (RAlt (RStr "mp3")
                 (RAlt (RStr "opus") (RStr "wav"))))) ].

(** The pattern  \[ExtractAudio\]  *)
Definition extractRe : regex := RStr "[ExtractAudio]".

(** ** Reading the percentage: [fmt.Sscanf(matches[1], "%f", &progress)]

    On the text group 1 of [downloadRe] can hold (digits, at most one dot,
    digits) the float token of [Sscanf] is the whole text and its value is
    the decimal number it spells, rounded to the nearest binary64, ties to
    even ([strconv.ParseFloat]).  The rounding is the Standard Library's
    [binary_round_aux] on the quotient mantissa / 10^k.  On overflow
    [ParseFloat] fails, [Sscanf] stores nothing and [progress] keeps its
    zero value; so it does when the token has no digit. *)

Module Scan.

Definition digitVal (c : ascii) : Z := Z.of_nat (nat_of_ascii c) - 48.

(** Reads a run of digits: the number read so far, how many digits were
    read, and the rest of the text. *)
Fixpoint digits (s : string) (n : Z) (k : Z) : Z * Z * string :=
  match s with
  | String c t => if isDigit c then digits t (10 * n + digitVal c) (k + 1) else (n, k, s)
  | EmptyString => (n, k, s)
  end.

(** The decimal [n / 10^k] rounded to binary64. *)
Definition roundDecimal (n k : Z) : spec_float :=
  if n =? 0 then S754_zero false
  else
    let '(q, e, l) := SFdiv_core_binary prec emax n 0 (10 ^ k) 0 in
    binary_round_aux prec emax false q e l.

Definition Sscanf_f (s : string) : float :=
  let '(n1, k1, rest) := digits s 0 0 in
  let '(n2, k2, _) :=
    match rest with
    | String "." t => digits t n1 0
    | _ => (n1, 0, rest)
    end in
  if k1 + k2 =? 0 then 0%float
  else
    match roundDecimal n2 k2 with
    | S754_infinity _ => 0%float
    | f => SF2Prim f
    end.

End Scan.

Import Scan.

(** [strings.ReplaceAll(s, "_", " ")] *)
Fixpoint ReplaceAll_underscore (s : string) : string :=
  match s with
  | String c t => String (if Ascii.eqb c "_" then " "%char else c) (ReplaceAll_underscore t)
  | EmptyString => EmptyString
  end.

(** ** package downloader: the worker [Download]

    The external process is what [Download] sees of it: whether the two
    pipes and the start succeed, the lines [bufio.Scanner] delivers on
    each stream, and the result of [cmd.Wait]. *)

Record Proc : Type := mkProc {
  StdoutPipeErr : error;
  StderrPipeErr : error;
  StartErr : error;
  stdoutLines : list string;
  stderrLines : list string;
  WaitErr : error
}.

(** What a drain loop does with one line, statement by statement: an
    assignment to the variable [title] the two loops and the main
    goroutine share, or a send on [progressChan] of a message whose
    [Title] is the value [title] has when the send runs. *)
Inductive Action : Type :=
| SetTitle (t : string)
| Emit (st : Status) (p : float).

(** The body of the stdout loop (source lines 85-98). *)
Definition stdoutBody (line : string) : list Action :=
  (let matches := FindStringSubmatch destRe line in
   if (1 <? length matches)%nat
   then [SetTitle (ReplaceAll_underscore (nth 1 matches "")); Emit StatusDownloading 0%float]
   else [])
  ++
  (let matches := FindStringSubmatch downloadRe line in
   if (1 <? length matches)%nat
   then [Emit StatusDownloading (Sscanf_f (nth 1 matches ""))]
   else [])
  ++
  (if MatchString extractRe line then [Emit StatusConverting 100%float] else []).

(** The body of the stderr loop (source lines 108-115). *)
Definition stderrBody (line : string) : list Action :=
  (let matches := FindStringSubmatch destRe line in
   if (1 <? length matches)%nat
   then [SetTitle (ReplaceAll_underscore (nth 1 matches ""))]
   else [])
  ++
  (let matches := FindStringSubmatch downloadRe line in
   if (1 <? length matches)%nat
   then [Emit StatusDownloading (Sscanf_f (nth 1 matches ""))]
   else []).

(** One loop body run without interference: the new [title] and the
    messages sent, in order. *)
Fixpoint runActions (id : Z) (title : string) (acts : list Action) : string * list ProgressMsg :=
  match acts with
  | [] => (title, [])
  | SetTitle t :: tl => runActions id t tl
  | Emit st p :: tl =>
      let '(title', ms) := runActions id title tl in
      (title', mkMsg id st p title None :: ms)
  end.

(** The messages of the main goroutine. *)
Definition startedMsg (id : Z) : ProgressMsg :=
  mkMsg id StatusDownloading 0%float "" None.

Definition setupFailedMsg (id : Z) (e : string) : ProgressMsg :=
  mkMsg id StatusFailed 0%float "" (Some e).

Definition failedMsg (id : Z) (title : string) : ProgressMsg :=
  mkMsg id StatusFailed 0%float title (Some "download failed").

Definition completedMsg (id : Z) (title : string) : ProgressMsg :=
  mkMsg id StatusCompleted 100%float title None.

Definition isTerminal (s : Status) : bool :=
  match s with
  | StatusCompleted | StatusFailed => true
  | _ => false
  end.

(** *** The three goroutines of one [Download] call

    The main goroutine sends [Started], sets the process up, spawns the
    two drain loops, blocks in [cmd.Wait], and sends the terminal message.
    Nothing joins the drain loops: they run on after [cmd.Wait] has
    returned and closed the pipes, and after [Download] has returned.
    [cmd.Wait] returns when the process has exited, which no statement of
    [Download] controls, so its return is a move that is always enabled;
    a loop sees the end of its stream when no line is left, or, once the
    pipes are closed, whenever it asks for a line.  [progressChan] is
    buffered: a send appends to [sent].  A schedule is the list of moves
    the Go scheduler picks. *)

Inductive MainPc : Type :=
| PcEntry       (* before the send of line 39 *)
| PcSetup       (* lines 54-71 *)
| PcWait        (* loops spawned, inside cmd.Wait *)
| PcSend        (* cmd.Wait has returned *)
| PcReturned    (* terminal message of line 120 or 124 sent *)
| PcAborted.    (* Failed sent at line 58, 64 or 69; no loop was spawned *)

Record Reader : Type := mkReader {
  pending : list Action;   (* rest of the current loop body *)
  unread : list string;    (* lines not yet returned by scanner.Scan *)
  eof : bool               (* scanner.Scan has returned false *)
}.

Record Worker : Type := mkWorker {
  pc : MainPc;
  title : string;
  rdOut : Reader;
  rdErr : Reader;
  sent : list ProgressMsg  (* the messages put on progressChan, oldest first *)
}.

Inductive Move : Type :=
| MvMain            (* next statement of the main goroutine *)
| MvStdout          (* next statement of the stdout loop *)
| MvStderr          (* next statement of the stderr loop *)
| MvStdoutClosed    (* scanner.Scan of stdout fails on the closed pipe *)
| MvStderrClosed.   (* scanner.Scan of stderr fails on the closed pipe *)

Definition winit (p : Proc) : Worker :=
  mkWorker PcEntry "" (mkReader [] (stdoutLines p) false)
           (mkReader [] (stderrLines p) false) [].

Definition spawned (c : MainPc) : bool :=
  match c with
  | PcWait | PcSend | PcReturned => true
  | _ => false
  end.

Definition pipesClosed (c : MainPc) : bool :=
  match c with
  | PcSend | PcReturned => true
  | _ => false
  end.

Definition mainStep (id : Z) (p : Proc) (w : Worker) : option Worker :=
  match pc w with
  | PcEntry =>
      Some (mkWorker PcSetup (title w) (rdOut w) (rdErr w) (sent w ++ [startedMsg id]))
  | PcSetup =>
      match StdoutPipeErr p, StderrPipeErr p, StartErr p with
      | Some e, _, _ | None, Some e, _ | None, None, Some e =>
          Some (mkWorker PcAborted (title w) (rdOut w) (rdErr w)
                         (sent w ++ [setupFailedMsg id e]))
      | None, None, None =>
          Some (mkWorker PcWait (title w) (rdOut w) (rdErr w) (sent w))
      end
  | PcWait =>
      Some (mkWorker PcSend (title w) (rdOut w) (rdErr w) (sent w))
  | PcSend =>
      match WaitErr p with
      | Some _ =>
          Some (mkWorker PcReturned (title w) (rdOut w) (rdErr w)
                         (sent w ++ [failedMsg id (title w)]))
      | None =>
          Some (mkWorker PcReturned (title w) (rdOut w) (rdErr w)
                         (sent w ++ [completedMsg id (title w)]))
      end
  | PcReturned | PcAborted => None
  end.

(** One statement of a drain loop: the reader, the shared [title] and the
    channel after it. *)
Definition readerStep (id : Z) (body : string -> list Action) (r : Reader)
    (ttl : string) (ch : list ProgressMsg) : option (Reader * string * list ProgressMsg) :=
  if eof r then None
  else
    match pending r with
    | SetTitle t :: acts => Some (mkReader acts (unread r) false, t, ch)
    | Emit st q :: acts =>
        Some (mkReader acts (unread r) false, ttl, ch ++ [mkMsg id st q ttl None])
    | [] =>
        match unread r with
        | l :: ls => Some (mkReader (body l) ls false, ttl, ch)
        | [] => Some (mkReader [] [] true, ttl, ch)
        end
    end.

(** [scanner.Scan] returns false because [cmd.Wait] closed the pipe: the
    lines still unread are lost. *)
Definition readerClosed (r : Reader) : option Reader :=
  if eof r then None
  else
    match pending r with
    | [] => Some (mkReader [] (unread r) true)
    | _ :: _ => None
    end.

Definition wstep (id : Z) (p : Proc) (mv : Move) (w : Worker) : option Worker :=
  match mv with
  | MvMain => mainStep id p w
  | MvStdout =>
      if spawned (pc w) then
        match readerStep id stdoutBody (rdOut w) (title w) (sent w) with
        | Some (r, t, ch) => Some (mkWorker (pc w) t r (rdErr w) ch)
        | None => None
        end
      else None
  | MvStderr =>
      if spawned (pc w) then
        match readerStep id stderrBody (rdErr w) (title w) (sent w) with
        | Some (r, t, ch) => Some (mkWorker (pc w) t (rdOut w) r ch)
        | None => None
        end
      else None
  | MvStdoutClosed =>
      if pipesClosed (pc w) then
        match readerClosed (rdOut w) with
        | Some r => Some (mkWorker (pc w) (title w) r (rdErr w) (sent w))
        | None => None
        end
      else None
  | MvStderrClosed =>
      if pipesClosed (pc w) then
        match readerClosed (rdErr w) with
        | Some r => Some (mkWorker (pc w) (title w) (rdOut w) r (sent w))
        | None => None
        end
      else None
  end.

(** Running a schedule; [None] when it asks for a move that is not
    enabled. *)
Fixpoint wrun (id : Z) (p : Proc) (mvs : list Move) (w : Worker) : option Worker :=
  match mvs with
  | [] => Some w
  | mv :: tl =>
      match wstep id p mv w with
      | Some w' => wrun id p tl w'
      | None => None
      end
  end.

(** [Download(id, url, config, progressChan)] under a schedule: the state
    it reaches, with the messages on the channel in [sent].  The [url] and
    the [config] only make up the command line of the process, which is
    [p] here. *)
Definition Download (id : Z) (p : Proc) (mvs : list Move) : option Worker :=
  wrun id p mvs (winit p).

(** ** package tui: the model and its update

    The spinner, the progress bar and the styles are presentation and are
    left out; [progressCh] is the list of messages handed to
    [handleProgress] one by one by the Bubble Tea loop, which keeps the
    [Model] that [Update] returns and drops the one it was called on. *)

Record Item : Type := mkItem {
  URL : string;
  Title : string;
  ItemStatus : Status;
  Progress : float;
  Error : error
}.

Record Model : Type := mkModel {
  items : list Item;
  config : Config;
  parallel : Z;
  activeCount : Z;
  completed : Z;
  failed : Z;
  width : Z;
  quitting : bool;
  done : bool
}.

(** [go downloader.Download(i, m.items[i].URL, m.config, m.progressCh)] *)
Record Launch : Type := mkLaunch {
  LaunchID : Z;
  LaunchURL : string;
  LaunchConfig : Config
}.

(** The commands [handleProgress] returns to the runtime. *)
Inductive Cmd : Type :=
| WaitForProgress
| Tick
| Quit
| Batch (c1 c2 : Cmd).   (* tea.Batch of two commands *)

Definition NewModel (urls : list string) (cfg : Config) (par : Z) : Model :=
  mkModel (map (fun url => mkItem url "" StatusPending 0%float None) urls)
          cfg par 0 0 0 80 false false.

(** The loop of [startDownloads] from index [i] on: the value of
    [m.activeCount] after it and the downloads launched. *)
Fixpoint startLoop (its : list Item) (i : Z) (cfg : Config) (par started active : Z)
    : Z * list Launch :=
  match its with
  | [] => (active, [])
  | it :: tl =>
      if started >=? par then (active, [])
      else if Status_eqb (ItemStatus it) StatusPending then
        let '(a, ls) := startLoop tl (i + 1) cfg par (Int.incr started) (Int.incr active) in
        (a, mkLaunch i (URL it) cfg :: ls)
      else startLoop tl (i + 1) cfg par started active
  end.

(** [func (m *Model) startDownloads()]: the receiver after the returned
    command has run, and the downloads it launched. *)
Definition startDownloads (m : Model) : Model * list Launch :=
  let '(a, ls) := startLoop (items m) 0 (config m) (parallel m) 0 (activeCount m) in
  (mkModel (items m) (config m) (parallel m) a (completed m) (failed m)
           (width m) (quitting m) (done m), ls).

(** [func (m Model) Init()]: [Init] has a value receiver, so
    [m.startDownloads()] takes the address of [Init]'s own copy of the
    model; the command increments [activeCount] in that copy, which nobody
    reads again.  The model the runtime goes on with is the one [Init] was
    called on, unchanged; what remains of the command is the launches. *)
Definition Init (m : Model) : Model * list Launch :=
  (m, snd (startDownloads m)).

(** Lines 158-166: the assignments to [m.items[msg.ID]]. *)
Definition applyMsg (msg : ProgressMsg) (item : Item) : Item :=
  mkItem (URL item)
         (if String.eqb (MsgTitle msg) "" then Title item else MsgTitle msg)
         (MsgStatus msg)
         (MsgProgress msg)
         (match MsgError msg with
          | Some e => Some e
          | None => Error item
          end).

(** Lines 181-187: the first [Pending] item is launched when
    [activeCount < parallel]; the loop stops there. *)
Fixpoint admitLoop (its : list Item) (i : Z) (cfg : Config) (par active : Z)
    : Z * list Launch :=
  match its with
  | [] => (active, [])
  | it :: tl =>
      if Status_eqb (ItemStatus it) StatusPending && (active <? par)
      then (Int.incr active, [mkLaunch i (URL it) cfg])
      else admitLoop tl (i + 1) cfg par active
  end.

Definition handleProgress (m : Model) (msg : ProgressMsg) : Model * list Launch * Cmd :=
  if (ID msg <? 0) || (ID msg >=? Z.of_nat (length (items m))) then
    (m, [], WaitForProgress)
  else
    let items1 := alter (applyMsg msg) (Z.to_nat (ID msg)) (items m) in
    if isTerminal (MsgStatus msg) then
      let active1 := Int.decr (activeCount m) in
      let completed1 :=
        if Status_eqb (MsgStatus msg) StatusCompleted
        then Int.incr (completed m) else completed m in
      let failed1 :=
        if Status_eqb (MsgStatus msg) StatusCompleted
        then failed m else Int.incr (failed m) in
      let '(active2, ls) := admitLoop items1 0 (config m) (parallel m) active1 in
      if Int.wrap64 (completed1 + failed1) =? Z.of_nat (length items1) then
        (mkModel items1 (config m) (parallel m) active2 completed1 failed1
                 (width m) (quitting m) true, ls, Quit)
      else
        (mkModel items1 (config m) (parallel m) active2 completed1 failed1
                 (width m) (quitting m) (done m), ls, Batch WaitForProgress Tick)
    else
      (mkModel items1 (config m) (parallel m) (activeCount m) (completed m) (failed m)
               (width m) (quitting m) (done m), [], Batch WaitForProgress Tick).

(** The model after [handleProgress], and the launches it made. *)
Definition update (m : Model) (msg : ProgressMsg) : Model := fst (fst (handleProgress m msg)).
Definition launches (m : Model) (msg : ProgressMsg) : list Launch := snd (fst (handleProgress m msg)).

(** The runtime's loop on the messages received, oldest first. *)
Definition feed (m : Model) (msgs : list ProgressMsg) : Model := fold_left update msgs m.

(** A run: [NewModel], [Init], then the messages. *)
Definition runModel (urls : list string) (cfg : Config) (par : Z) (msgs : list ProgressMsg) : Model :=
  feed (fst (Init (NewModel urls cfg par))) msgs.

(** The statuses item [i] goes through while the messages are applied. *)
Definition statusAt (m : Model) (i : nat) : option Status := ItemStatus <$> items m !! i.

Fixpoint statusTrace (m : Model) (i : nat) (msgs : list ProgressMsg) : list (option Status) :=
  statusAt m i ::
  match msgs with
  | [] => []
  | msg :: tl => statusTrace (update m msg) i tl
  end.

Definition isActive (s : Status) : bool :=
  match s with
  | StatusDownloading | StatusConverting => true
  | _ => false
  end.

(** How many items are Running (Downloading) or Converting. *)
Definition activeItems (m : Model) : Z :=
  Z.of_nat (length (List.filter (fun it => isActive (ItemStatus it)) (items m))).

(** How many items have status [s]. *)
Definition countStatus (s : Status) (m : Model) : Z :=
  Z.of_nat (length (List.filter (fun it => Status_eqb (ItemStatus it) s) (items m))).

(** * Predicates of the specification and example inputs *)

(** The bounds check of [handleProgress] passes. *)
Definition inRange (m : Model) (msg : ProgressMsg) : Prop :=
  0 <= ID msg < Z.of_nat (length (items m)).

Definition isPending (it : Item) : Prop := ItemStatus it = StatusPending.

(** ** The claims that fail, as predicates *)

(** C2 at a model and a terminal message: after applying the message
    twice, [activeCount] is not negative and the two completion counters
    together went up by at most one. *)
Definition duplicateSafe (m : Model) (msg : ProgressMsg) : Prop :=
  let m2 := update (update m msg) msg in
  0 <= activeCount m2 /\
  completed m2 + failed m2 <= completed m + failed m + 1.

(** C3 at a model. *)
Definition activeCountExact (m : Model) : Prop :=
  activeCount m = activeItems m /\ activeCount m <= parallel m.

(** C4: the state machine of the specification, Pending -> Running ->
    Converting -> Completed, Running -> Completed, and Failed from Running
    or Converting; staying in a state is not a move. *)
Definition validStep (a b : Status) : bool :=
  match a, b with
  | StatusPending, StatusDownloading
  | StatusDownloading, StatusConverting
  | StatusDownloading, StatusCompleted
  | StatusConverting, StatusCompleted
  | StatusDownloading, StatusFailed
  | StatusConverting, StatusFailed => true
  | _, _ => Status_eqb a b
  end.

Fixpoint validPath (l : list (option Status)) : bool :=
  match l with
  | [] => true
  | Some a :: tl =>
      match tl with
      | [] => true
      | Some b :: _ => validStep a b && validPath tl
      | None :: _ => false
      end
  | None :: _ => false
  end.

(** C5 for one process: in every reachable state, a terminal message on
    the channel is the last message, and both drain loops have seen the
    end of their stream. *)
Definition terminalAfterDrain (id : Z) (p : Proc) : Prop :=
  forall mvs w, Download id p mvs = Some w ->
  forall pre t post, sent w = pre ++ t :: post ->
  isTerminal (MsgStatus t) = true ->
  post = [] /\
  (spawned (pc w) = true -> eof (rdOut w) = true /\ eof (rdErr w) = true).

(** ** Example processes and schedules *)

(** The configuration of the examples: the defaults of the command line,
    with an output directory. *)
Definition exampleConfig : Config := mkConfig "/out" "mp3" "192".

(** The messages on the channel after a schedule. *)
Definition sentBy (id : Z) (p : Proc) (mvs : list Move) : list ProgressMsg :=
  match Download id p mvs with
  | Some w => sent w
  | None => []
  end.

(** A process that prints one progress line and exits with a non-zero
    status. *)
Definition failingProc : Proc :=
  mkProc None None None ["[download]  10.0% of 3.00MiB at 1.00MiB/s"] [] (Some "exit status 1").

(** The schedule in which the stdout loop handles the line and both loops
    see the end of their stream before [cmd.Wait] returns. *)
Definition drainedSchedule : list Move :=
  [MvMain; MvMain; MvStdout; MvStdout; MvStdout; MvStderr; MvMain; MvMain].

(** The stdout loop has read the line when [cmd.Wait] returns; the main
    goroutine sends [Failed]; then the loop sends the progress message. *)
Definition racySchedule : list Move :=
  [MvMain; MvMain; MvStdout; MvMain; MvMain; MvStdout].

(** A process whose output has a download line after the extraction
    marker, and which exits cleanly. *)
Definition lateProgressProc : Proc :=
  mkProc None None None
         ["[ExtractAudio] Destination: /out/My_Song.mp3";
          "[download]  50.0% of 3.00MiB at 1.00MiB/s"]
         [] None.

(** The schedule in which the stdout loop handles both lines and both
    loops see the end of their stream before [cmd.Wait] returns. *)
Definition lateProgressSchedule : list Move :=
  [MvMain; MvMain] ++ repeat MvStdout 7 ++ [MvStderr; MvMain; MvMain].

(** ** The worker invariant *)

(** An action that sends no terminal message. *)
Definition quietAction (a : Action) : Prop :=
  match a with
  | SetTitle _ => True
  | Emit st _ => isTerminal st = false
  end.

Definition terminalCount (ms : list ProgressMsg) : nat :=
  length (List.filter (fun m => isTerminal (MsgStatus m)) ms).

(** [Download] has returned. *)
Definition finished (c : MainPc) : bool :=
  match c with
  | PcReturned | PcAborted => true
  | _ => false
  end.

(** What holds of a worker in every state it reaches: its messages carry
    its id, [Started] is the first of them, one terminal message has been
    sent if and only if [Download] has returned, and the drain loops have
    no terminal message left to send. *)
Record WorkerInv (id : Z) (w : Worker) : Prop := mkWorkerInv {
  inv_ids : Forall (fun m => ID m = id) (sent w);
  inv_head : pc w = PcEntry /\ sent w = [] \/
             pc w <> PcEntry /\ exists rest, sent w = startedMsg id :: rest;
  inv_term : terminalCount (sent w) = if finished (pc w) then 1%nat else 0%nat;
  inv_out : Forall quietAction (pending (rdOut w));
  inv_err : Forall quietAction (pending (rdErr w))
}.

(** * The rest of the code: definitions *)

(** ** Counting the messages of a run *)

(** The message passes the bounds check for [n] items and carries the
    status [s]. *)
Definition hits (n : nat) (s : Status) (e : ProgressMsg) : bool :=
  (0 <=? ID e) && (ID e <? Z.of_nat n) && Status_eqb (MsgStatus e) s.

(** How many of the messages do. *)
Definition countMsgs (n : nat) (s : Status) (msgs : list ProgressMsg) : Z :=
  Z.of_nat (length (List.filter (hits n s) msgs)).

(** ** The shape of a worker's messages *)

Fixpoint noUnderscore (s : string) : bool :=
  match s with
  | EmptyString => true
  | String c t => negb (Ascii.eqb c "_") && noUnderscore t
  end.

(** The error that makes [Download] give up before the process runs, if
    any: the three checks of lines 56-71, in their order. *)
Definition setupErr (p : Proc) : error :=
  match StdoutPipeErr p, StderrPipeErr p, StartErr p with
  | Some e, _, _ | None, Some e, _ | None, None, Some e => Some e
  | None, None, None => None
  end.

(** The terminal message the process calls for. *)
Definition terminalOf (id : Z) (p : Proc) (m : ProgressMsg) : Prop :=
  match setupErr p with
  | Some e => m = setupFailedMsg id e
  | None =>
      match WaitErr p with
      | Some _ => m = failedMsg id (MsgTitle m)
      | None => m = completedMsg id (MsgTitle m)
      end
  end.

(** A message that reports progress: no error, and either Downloading or
    Converting at 100 percent. *)
Definition progressShape (m : ProgressMsg) : Prop :=
  MsgError m = None /\
  (MsgStatus m = StatusDownloading \/
   MsgStatus m = StatusConverting /\ MsgProgress m = 100%float).

Definition msgShape (id : Z) (p : Proc) (m : ProgressMsg) : Prop :=
  ID m = id /\ noUnderscore (MsgTitle m) = true /\
  if isTerminal (MsgStatus m) then terminalOf id p m else progressShape m.

Definition actionShape (a : Action) : Prop :=
  match a with
  | SetTitle t => noUnderscore t = true
  | Emit st q => st = StatusDownloading \/ st = StatusConverting /\ q = 100%float
  end.

(** A second invariant of the worker, on what its messages look like and
    on what a failed setup leaves undone. *)
Record WorkerShape (id : Z) (p : Proc) (w : Worker) : Prop := mkWorkerShape {
  sh_sent : Forall (msgShape id p) (sent w);
  sh_title : noUnderscore (title w) = true;
  sh_out : Forall actionShape (pending (rdOut w));
  sh_err : Forall actionShape (pending (rdErr w));
  sh_setup : forall e, setupErr p = Some e ->
             rdOut w = rdOut (winit p) /\ rdErr w = rdErr (winit p) /\
             (pc w = PcEntry /\ sent w = [] \/
              pc w = PcSetup /\ sent w = [startedMsg id] \/
              pc w = PcAborted /\ sent w = [startedMsg id; setupFailedMsg id e]);
  sh_ok : setupErr p = None -> pc w <> PcAborted
}.

(** ** What the three patterns accept

    The meaning of a pattern as a set of texts, independent of the search
    order of [matchRe]: [Accepts r w cs cs'] says that [r] matches exactly
    the text [w] and extends the captures [cs] to [cs']. *)

Local Infix "+++" := String.append (right associativity, at level 60).

Fixpoint allChars (f : ascii -> bool) (s : string) : bool :=
  match s with
  | EmptyString => true
  | String c t => f c && allChars f t
  end.

Inductive Accepts : regex -> string -> caps -> caps -> Prop :=
| AccAtom (a : atom) (c : ascii) (cs : caps) :
    atomMatches a c = true -> Accepts (RAtom a) (String c "") cs cs
| AccStr (lit : string) (cs : caps) :
    Accepts (RStr lit) lit cs cs
| AccStar (a : atom) (w : string) (cs : caps) :
    allChars (atomMatches a) w = true -> Accepts (RStar a) w cs cs
| AccPlus (a : atom) (w : string) (cs : caps) :
    w <> "" -> allChars (atomMatches a) w = true -> Accepts (RPlus a) w cs cs
| AccOptNone (a : atom) (cs : caps) :
    Accepts (ROpt a) "" cs cs
| AccOptSome (a : atom) (c : ascii) (cs : caps) :
    atomMatches a c = true -> Accepts (ROpt a) (String c "") cs cs
| AccSeq (r1 r2 : regex) (w w1 w2 : string) (cs cs1 cs2 : caps) :
    Accepts r1 w1 cs cs1 -> Accepts r2 w2 cs1 cs2 -> w = w1 +++ w2 ->
    Accepts (RSeq r1 r2) w cs cs2
| AccAltL (r1 r2 : regex) (w : string) (cs cs' : caps) :
    Accepts r1 w cs cs' -> Accepts (RAlt r1 r2) w cs cs'
| AccAltR (r1 r2 : regex) (w : string) (cs cs' : caps) :
    Accepts r2 w cs cs' -> Accepts (RAlt r1 r2) w cs cs'
| AccGroup (i : nat) (r : regex) (w : string) (cs cs' : caps) :
    Accepts r w cs cs' -> Accepts (RGroup i r) w cs ((i, w) :: cs').

(** A decimal number as group 1 of [downloadRe] takes it: digits, at most
    one dot, digits. *)
Definition isNumberText (d : string) : Prop :=
  exists d1 dot d2,
    d = d1 +++ dot +++ d2 /\ d1 <> "" /\ allChars isDigit d1 = true /\
    (dot = "" \/ dot = ".") /\ allChars isDigit d2 = true.

(** The line holds, somewhere, the marker, white space, the number [d] and
    a percent sign. *)
Definition hasPercentage (d line : string) : Prop :=
  exists pre ws post,
    line = pre +++ "[download]" +++ ws +++ d +++ "%" +++ post /\
    ws <> "" /\ allChars isSpace ws = true /\ isNumberText d.

Definition notNewline (c : ascii) : bool := negb (Nat.eqb (nat_of_ascii c) 10).

Definition audioExts : list string := ["webm"; "m4a"; "mp3"; "opus"; "wav"].

(** The line holds, somewhere, "Destination:", white space, any text, a
    slash, the non-empty [name], a dot and one of the five extensions. *)
Definition hasDestination (name line : string) : Prop :=
  exists pre ws mid ext post,
    line = pre +++ "Destination:" +++ ws +++ mid +++ "/" +++ name +++ "." +++ ext +++ post /\
    ws <> "" /\ allChars isSpace ws = true /\
    allChars notNewline mid = true /\
    name <> "" /\ allChars notNewline name = true /\
    In ext audioExts.

(** The line holds the extraction marker. *)
Definition hasExtractMarker (line : string) : Prop :=
  exists pre post, line = pre +++ "[ExtractAudio]" +++ post.

(** The status and the percent of a send, if the action is one. *)
Definition emitStatus (a : Action) : option Status :=
  match a with
  | Emit st _ => Some st
  | SetTitle _ => None
  end.

Definition emitProgress (a : Action) : option float :=
  match a with
  | Emit _ q => Some q
  | SetTitle _ => None
  end.

(** ** package tui: what is drawn

    Of [View] and [renderItem] only the computations on indices and
    lengths are modelled; the styling is left out. *)

(** [truncate(s, max)]: [None] is the run-time panic of the slice
    expression [s[:max-3]] when [max-3] is negative. *)
Definition truncate (s : string) (max : Z) : option string :=
  if Z.of_nat (String.length s) <=? max then Some s
  else if max - 3 <? 0 then None
  else Some (takeStr (Z.to_nat (max - 3)) s +++ "...").

(** Lines 262-267 of [renderItem]: the name shown for an item. *)
Definition displayTitle (item : Item) : option string :=
  if String.eqb (Title item) "" then truncate (URL item) 45 else truncate (Title item) 45.

(** The loop of lines 222-227 from index [i] on: the index of the first
    item that is neither Completed nor Failed. *)
Fixpoint firstUnfinished (its : list Item) (i : Z) : option Z :=
  match its with
  | [] => None
  | it :: tl =>
      if negb (Status_eqb (ItemStatus it) StatusCompleted)
         && negb (Status_eqb (ItemStatus it) StatusFailed)
      then Some i
      else firstUnfinished tl (i + 1)
  end.

Definition maxItems : Z := 10.

(** Lines 218-233 of [View]: the indices [start] (included) and [end]
    (excluded) of the items drawn. *)
Definition viewWindow (m : Model) : Z * Z :=
  let n := Z.of_nat (length (items m)) in
  let start :=
    if n >? maxItems then
      let start0 :=
        match firstUnfinished (items m) 0 with
        | Some i => Z.max 0 (i - 2)
        | None => 0
        end in
      if start0 + maxItems >? n then Z.max 0 (n - maxItems) else start0
    else 0 in
  (start, Z.min (start + maxItems) n).

(** ** package tui: [Update]

    The messages of the Bubble Tea runtime that [Update] tells apart.  The
    progress bar and the spinner are not part of [Model] here, so a
    window-size message only sets [width], and a spinner tick only
    returns the spinner's command: the next tick, or nil for a tick the
    spinner does not wait for. *)
Inductive Msg : Type :=
| KeyMsg (key : string)            (* tea.KeyMsg, by its String() *)
| WindowSizeMsg (w h : Z)          (* tea.WindowSizeMsg *)
| TickMsg (current : bool)         (* spinner.TickMsg; [current]: it is the tick
                                      the spinner waits for *)
| ProgressMessage (msg : ProgressMsg)
| OtherMsg.                        (* any other message *)

(** [func (m Model) Update(msg tea.Msg)]: the model, the downloads
    launched and the command, [None] for a nil command. *)
Definition Update (m : Model) (msg : Msg) : Model * list Launch * option Cmd :=
  match msg with
  | KeyMsg key =>
      if String.eqb key "ctrl+c" || String.eqb key "q" then
        (mkModel (items m) (config m) (parallel m) (activeCount m) (completed m) (failed m)
                 (width m) true (done m), [], Some Quit)
      else (m, [], None)
  | WindowSizeMsg w _ =>
      (mkModel (items m) (config m) (parallel m) (activeCount m) (completed m) (failed m)
               w (quitting m) (done m), [], None)
  | TickMsg current => (m, [], if current then Some Tick else None)
  | ProgressMessage pm =>
      let '(m', ls, c) := handleProgress m pm in (m', ls, Some c)
  | OtherMsg => (m, [], None)
  end.

(** The runtime's loop on all messages, oldest first. *)
Definition runUpdates (m : Model) (msgs : list Msg) : Model :=
  fold_left (fun m msg => fst (fst (Update m msg))) msgs m.

(** The progress messages among the messages, in order. *)
Fixpoint progressOf (msgs : list Msg) : list ProgressMsg :=
  match msgs with
  | [] => []
  | ProgressMessage pm :: tl => pm :: progressOf tl
  | _ :: tl => progressOf tl
  end.

Definition isQuitKey (msg : Msg) : bool :=
  match msg with
  | KeyMsg key => String.eqb key "ctrl+c" || String.eqb key "q"
  | _ => false
  end.

(** The part of the model the aggregation owns. *)
Definition aggregate (m : Model) : list Item * Z * Z * Z * bool :=
  (items m, activeCount m, completed m, failed m, done m).

(** The model with other presentation fields. *)
Definition withUi (m : Model) (w : Z) (q : bool) : Model :=
  mkModel (items m) (config m) (parallel m) (activeCount m) (completed m) (failed m)
          w q (done m).

(** ** package main: the list of URLs

    What [parseFlags] and [readURLsFromFile] do with the texts they are
    given; the flag parsing and the file system are outside.  The three
    functions of package [strings] they call are modelled on bytes. *)

Module Strings.

(** The UTF-8 encodings of the runes [unicode.IsSpace] accepts: U+0009 to
    U+000D, U+0020, U+0085, U+00A0, U+1680, U+2000 to U+200A, U+2028,
    U+2029, U+202F, U+205F, U+3000. *)
Definition whiteSpace : list (list ascii) :=
  map (map ascii_of_nat)
    [ [9]; [10]; [11]; [12]; [13]; [32]; [194; 133]; [194; 160]; [225; 154; 128];
      [226; 128; 128]; [226; 128; 129]; [226; 128; 130]; [226; 128; 131];
      [226; 128; 132]; [226; 128; 133]; [226; 128; 134]; [226; 128; 135];
      [226; 128; 136]; [226; 128; 137]; [226; 128; 138];
      [226; 128; 168]; [226; 128; 169]; [226; 128; 175]; [226; 129; 159];
      [227; 128; 128] ]%nat.

Fixpoint startsWith (e l : list ascii) : bool :=
  match e, l with
  | [], _ => true
  | c :: e', d :: l' => Ascii.eqb c d && startsWith e' l'
  | _ :: _, [] => false
  end.

(** The length of the entry of [table] the bytes start with, 0 if none. *)
Fixpoint spaceLen (table : list (list ascii)) (l : list ascii) : nat :=
  match table with
  | [] => 0
  | e :: tl => if startsWith e l then length e else spaceLen tl l
  end.

(** Drops leading entries of [table], at most [n] times. *)
Fixpoint trimLeftN (table : list (list ascii)) (n : nat) (l : list ascii) : list ascii :=
  match n with
  | O => l
  | S n' =>
      match spaceLen table l with
      | O => l
      | S k => trimLeftN table n' (drop (S k) l)
      end
  end.

Definition trimLeft (table : list (list ascii)) (l : list ascii) : list ascii :=
  trimLeftN table (length l) l.

(** Trailing entries are leading entries of the reversed bytes. *)
Definition trimRight (table : list (list ascii)) (l : list ascii) : list ascii :=
  reverse (trimLeft (map reverse table) (reverse l)).

Definition trimBytes (l : list ascii) : list ascii :=
  trimRight whiteSpace (trimLeft whiteSpace l).

(** [strings.TrimSpace(s)] *)
Definition TrimSpace (s : string) : string :=
  string_of_list_ascii (trimBytes (list_ascii_of_string s)).

(** [strings.HasPrefix(s, "#")] *)
Definition HasPrefix_hash (s : string) : bool :=
  match s with
  | String c _ => Ascii.eqb c "#"
  | EmptyString => false
  end.

(** [strings.Split(s, ",")] *)
Fixpoint Split_comma (s : string) : list string :=
  match s with
  | EmptyString => [""]
  | String c t =>
      if Ascii.eqb c "," then "" :: Split_comma t
      else
        match Split_comma t with
        | h :: r => String c h :: r
        | [] => [String c ""]
        end
  end.

(** [strings.Join(l, ",")] *)
Fixpoint Join_comma (l : list string) : string :=
  match l with
  | [] => ""
  | [x] => x
  | x :: tl => x +++ "," +++ Join_comma tl
  end.

End Strings.

Import Strings.

(** The test both functions apply to a text: trimmed, it is kept when it
    is not empty and does not start with the comment sign. *)
Definition keepURL (s : string) : option string :=
  let u := TrimSpace s in
  if negb (String.eqb u "") && negb (HasPrefix_hash u) then Some u else None.

(** [readURLsFromFile], on the lines the scanner delivers. *)
Definition readURLsFromFile (lines : list string) : list string := omap keepURL lines.

(** Lines 107-114 of [parseFlags].  The source filters in place, writing
    through [config.URLs[:0]] into the array it is reading: a write at a
    position is never ahead of the position being read, so the result is
    that of a fresh list. *)
Definition filterURLs (urls : list string) : list string := omap keepURL urls.

(** Lines 88-114 of [parseFlags]: the URLs of the file (when [-file] is
    given, [fileLines] is what the file holds), then the pieces of the
    [-urls] value, then the positional arguments, all filtered. *)
Definition collectURLs (fileLines : option (list string)) (urlList : string)
    (args : list string) : list string :=
  filterURLs
    ((match fileLines with
      | Some lines => readURLsFromFile lines
      | None => []
      end)
     ++ (if String.eqb urlList "" then [] else Split_comma urlList)
     ++ args).

(** ** The schedule that drains the streams first *)

(** A drain loop run alone on its lines: the title it leaves and the
    messages it sends. *)
Fixpoint runLines (id : Z) (body : string -> list Action) (ttl : string)
    (lines : list string) : string * list ProgressMsg :=
  match lines with
  | [] => (ttl, [])
  | l :: tl =>
      let '(t1, ms1) := runActions id ttl (body l) in
      let '(t2, ms2) := runLines id body t1 tl in
      (t2, ms1 ++ ms2)
  end.

(** The moves of one loop that read every line, run every statement and
    see the end of the stream. *)
Fixpoint drainMoves (mv : Move) (body : string -> list Action) (lines : list string)
    : list Move :=
  match lines with
  | [] => [mv]
  | l :: tl => mv :: repeat mv (length (body l)) ++ drainMoves mv body tl
  end.

(** Start and setup, the stdout loop to its end, the stderr loop to its
    end, then [cmd.Wait] returns and the terminal message is sent. *)
Definition drainFirst (p : Proc) : list Move :=
  [MvMain; MvMain]
  ++ drainMoves MvStdout stdoutBody (stdoutLines p)
  ++ drainMoves MvStderr stderrBody (stderrLines p)
  ++ [MvMain; MvMain].

(** ** The launches of a run *)

(** The downloads [handleProgress] launches while the messages are
    applied, in order. *)
Fixpoint launchLog (m : Model) (msgs : list ProgressMsg) : list Launch :=
  match msgs with
  | [] => []
  | msg :: tl => launches m msg ++ launchLog (update m msg) tl
  end.




(** * Properties *)

(** ** Machine integers in range *)

Lemma wrap64_id (x : Z) : Int.min_int <= x <= Int.max_int -> Int.wrap64 x = x.
Proof.
  unfold Int.wrap64, Int.min_int, Int.max_int. intros H.
  rewrite Z.mod_small by lia. lia.
Qed.

Lemma incr_small (x : Z) : Int.min_int <= x < Int.max_int -> Int.incr x = x + 1.
Proof. unfold Int.incr, Int.min_int, Int.max_int. intros H. apply wrap64_id. unfold Int.min_int, Int.max_int. lia. Qed.

Lemma decr_small (x : Z) : Int.min_int < x <= Int.max_int -> Int.decr x = x - 1.
Proof. unfold Int.decr, Int.min_int, Int.max_int. intros H. apply wrap64_id. unfold Int.min_int, Int.max_int. lia. Qed.

(** ** The model on small inputs *)

Example Sscanf_f_values :
  Sscanf_f "42.5" = 42.5%float /\ Sscanf_f "100" = 100%float /\
  Sscanf_f "12." = 12%float /\ Sscanf_f "" = 0%float.
Proof. vm_compute. repeat split. Qed.

(** The leftmost match wins, and [.*] and [.+] give back what the rest of
    the pattern needs. *)
Example FindStringSubmatch_values :
  FindStringSubmatch downloadRe "[download]  42.5% of 3.00MiB" =
    ["[download]  42.5%"; "42.5"] /\
  FindStringSubmatch downloadRe "[download] x [download]   100%" =
    ["[download]   100%"; "100"] /\
  FindStringSubmatch destRe "Destination: /out/a.mp3/b/My_Song.webmx.wav.zip" =
    ["Destination: /out/a.mp3/b/My_Song.webmx.wav"; "My_Song.webmx"; "wav"] /\
  FindStringSubmatch destRe "Deleting original file /out/My_Song.webm" = [].
Proof. vm_compute. repeat split. Qed.

(** Three items, limit 2: the command of [Init] launches items 0 and 1
    and counts them in its own copy of the model; the model of the run
    keeps [activeCount = 0].  Item 2 stays [Pending] until a terminal
    message arrives, and is launched then. *)
Example three_items_two_slots :
  let m0 := NewModel ["a"; "b"; "c"] exampleConfig 2 in
  let m := feed (fst (Init m0)) [startedMsg 0; startedMsg 1] in
  map LaunchID (snd (Init m0)) = [0; 1] /\
  activeCount (fst (startDownloads m0)) = 2 /\
  activeCount (fst (Init m0)) = 0 /\
  map ItemStatus (items m) = [StatusDownloading; StatusDownloading; StatusPending] /\
  map LaunchID (launches m (completedMsg 1 "")) = [2].
Proof. vm_compute. repeat split. Qed.

(** ** The update, case by case *)

Lemma Status_eqb_eq (a b : Status) : Status_eqb a b = true <-> a = b.
Proof. destruct a, b; simpl; split; intros H; congruence. Qed.

Lemma range_check_false (m : Model) (msg : ProgressMsg) :
  inRange m msg ->
  (ID msg <? 0) || (ID msg >=? Z.of_nat (length (items m))) = false.
Proof.
  unfold inRange. intros [H0 H1].
  apply orb_false_iff. split; [apply Z.ltb_ge; lia|].
  rewrite Z.geb_leb. apply Z.leb_gt. lia.
Qed.

Lemma range_check_true (m : Model) (msg : ProgressMsg) :
  ID msg < 0 \/ Z.of_nat (length (items m)) <= ID msg ->
  (ID msg <? 0) || (ID msg >=? Z.of_nat (length (items m))) = true.
Proof.
  intros [H | H]; apply orb_true_iff.
  - left. apply Z.ltb_lt. lia.
  - right. rewrite Z.geb_leb. apply Z.leb_le. lia.
Qed.

(** Unfolds [handleProgress] on an in-range message and splits on its
    tests. *)
Ltac hp_unfold Hr :=
  unfold update, launches, handleProgress;
  rewrite (range_check_false _ _ Hr);
  repeat match goal with
    | |- context [isTerminal ?s] => destruct (isTerminal s) eqn:?
    | |- context [admitLoop ?a ?b ?c ?d ?e] => destruct (admitLoop a b c d e) eqn:?
    | |- context [if ?x =? ?y then _ else _] => destruct (x =? y) eqn:?
    end; cbn [fst snd items config parallel activeCount completed failed width quitting done].

Lemma update_items (m : Model) (msg : ProgressMsg) :
  inRange m msg ->
  items (update m msg) = alter (applyMsg msg) (Z.to_nat (ID msg)) (items m).
Proof. intros Hr. hp_unfold Hr; reflexivity. Qed.

Lemma update_length (m : Model) (msg : ProgressMsg) :
  length (items (update m msg)) = length (items m).
Proof.
  destruct (Z_lt_dec (ID msg) 0) as [Hn | Hn].
  - unfold update, handleProgress. rewrite range_check_true by auto. reflexivity.
  - destruct (Z_le_dec (Z.of_nat (length (items m))) (ID msg)) as [Hg | Hg].
    + unfold update, handleProgress. rewrite range_check_true by auto. reflexivity.
    + rewrite update_items by (unfold inRange; lia). apply length_alter.
Qed.

Lemma update_fixed (m : Model) (msg : ProgressMsg) :
  config (update m msg) = config m /\ parallel (update m msg) = parallel m /\
  width (update m msg) = width m /\ quitting (update m msg) = quitting m.
Proof.
  unfold update, handleProgress.
  destruct ((ID msg <? 0) || (ID msg >=? Z.of_nat (length (items m)))); [easy|].
  destruct (isTerminal _); [|easy].
  destruct (admitLoop _ _ _ _ _). destruct (_ =? _); easy.
Qed.

Lemma update_nonterminal (m : Model) (msg : ProgressMsg) :
  isTerminal (MsgStatus msg) = false ->
  activeCount (update m msg) = activeCount m /\
  completed (update m msg) = completed m /\
  failed (update m msg) = failed m /\
  done (update m msg) = done m /\
  launches m msg = [].
Proof.
  intros Ht. unfold update, launches, handleProgress.
  destruct ((ID msg <? 0) || (ID msg >=? Z.of_nat (length (items m)))); [easy|].
  rewrite Ht. easy.
Qed.

(** ** The admission scan *)

Lemma admitLoop_cases (its : list Item) (i : Z) (cfg : Config) (par a : Z) :
  admitLoop its i cfg par a = (a, []) \/
  (a < par /\ exists l, admitLoop its i cfg par a = (Int.incr a, [l])).
Proof.
  revert i. induction its as [|it tl IH]; intros i; simpl; [now left|].
  destruct (Status_eqb (ItemStatus it) StatusPending && (a <? par)) eqn:E.
  - right. apply andb_true_iff in E as [_ E]. apply Z.ltb_lt in E. eauto.
  - apply IH.
Qed.


Lemma admitLoop_none (its : list Item) (i : Z) (cfg : Config) (par a : Z) :
  (forall j it, its !! j = Some it -> ~ isPending it) ->
  admitLoop its i cfg par a = (a, []).
Proof.
  revert i. induction its as [|x tl IH]; intros i Hn; simpl; [reflexivity|].
  destruct (Status_eqb (ItemStatus x) StatusPending) eqn:E.
  - exfalso. apply (Hn 0%nat x); [reflexivity|]. apply Status_eqb_eq. exact E.
  - simpl. apply IH. intros j it Hl. apply (Hn (S j) it). exact Hl.
Qed.

(** A list with a [Pending] item has a first one. *)
Lemma first_pending (its : list Item) :
  (exists j it, its !! j = Some it /\ isPending it) ->
  exists k it, its !! k = Some it /\ isPending it /\
    forall j it', (j < k)%nat -> its !! j = Some it' -> ~ isPending it'.
Proof.
  induction its as [|x tl IH]; intros (j & it & Hl & Hp); [discriminate|].
  destruct (Status_eqb (ItemStatus x) StatusPending) eqn:E.
  - exists 0%nat, x. split; [reflexivity|]. split; [apply Status_eqb_eq; exact E|].
    intros j' it' Hj. lia.
  - destruct j as [|j].
    + simpl in Hl. injection Hl as ->. apply Status_eqb_eq in Hp. congruence.
    + destruct IH as (k & it0 & Hk & Hp0 & Hmin); [eauto|].
      exists (S k), it0. split; [exact Hk|]. split; [exact Hp0|].
      intros j' it' Hj Hl'. destruct j' as [|j'].
      * simpl in Hl'. injection Hl' as <-. intros Hx. apply Status_eqb_eq in Hx. congruence.
      * apply (Hmin j' it'); [lia | exact Hl'].
Qed.

(** ** The counters along a run *)

Lemma update_terminal_counts (m : Model) (msg : ProgressMsg) :
  inRange m msg ->
  isTerminal (MsgStatus msg) = true ->
  completed (update m msg) =
    (if Status_eqb (MsgStatus msg) StatusCompleted then Int.incr (completed m) else completed m) /\
  failed (update m msg) =
    (if Status_eqb (MsgStatus msg) StatusCompleted then failed m else Int.incr (failed m)) /\
  (activeCount (update m msg) = Int.decr (activeCount m) /\ launches m msg = [] \/
   Int.decr (activeCount m) < parallel m /\
   activeCount (update m msg) = Int.incr (Int.decr (activeCount m)) /\
   exists l, launches m msg = [l]).
Proof.
  intros Hr Ht.
  pose proof (admitLoop_cases (alter (applyMsg msg) (Z.to_nat (ID msg)) (items m)) 0
                (config m) (parallel m) (Int.decr (activeCount m))) as Hc.
  unfold update, launches, handleProgress.
  rewrite (range_check_false _ _ Hr), Ht.
  destruct Hc as [Hc | (Hlt & l & Hc)]; rewrite Hc;
    destruct (_ =? _); cbn; (split; [reflexivity|]); (split; [reflexivity|]);
    [left | left | right | right]; eauto.
Qed.

Lemma update_active_bounds (m : Model) (msg : ProgressMsg) :
  Int.min_int < activeCount m <= parallel m ->
  parallel m <= Int.max_int ->
  activeCount m - 1 <= activeCount (update m msg) <= parallel m.
Proof.
  intros Ha Hp.
  destruct (isTerminal (MsgStatus msg)) eqn:Ht.
  2:{ destruct (update_nonterminal m msg Ht) as (-> & _). lia. }
  destruct (Z_lt_dec (ID msg) 0) as [Hn | Hn];
    [unfold update, handleProgress; rewrite range_check_true by auto; cbn; lia|].
  destruct (Z_le_dec (Z.of_nat (length (items m))) (ID msg)) as [Hg | Hg];
    [unfold update, handleProgress; rewrite range_check_true by auto; cbn; lia|].
  assert (Hr : inRange m msg) by (unfold inRange; lia).
  assert (Hd : Int.decr (activeCount m) = activeCount m - 1)
    by (apply decr_small; lia).
  destruct (update_terminal_counts m msg Hr Ht) as (_ & _ & [[-> _] | (Hlt & -> & _)]).
  - lia.
  - rewrite Hd in *. rewrite incr_small by (unfold Int.min_int, Int.max_int in *; lia). lia.
Qed.

Lemma feed_active_bounds (msgs : list ProgressMsg) (m : Model) :
  Int.min_int + Z.of_nat (length msgs) < activeCount m <= parallel m ->
  parallel m <= Int.max_int ->
  activeCount m - Z.of_nat (length msgs) <= activeCount (feed m msgs) <= parallel m /\
  parallel (feed m msgs) = parallel m.
Proof.
  revert m. induction msgs as [|msg tl IH]; intros m Ha Hp.
  - simpl. split; [lia | reflexivity].
  - simpl feed. change (fold_left update tl (update m msg)) with (feed (update m msg) tl).
    rewrite length_cons, Nat2Z.inj_succ in *.
    pose proof (update_active_bounds m msg ltac:(lia) Hp) as Hb.
    destruct (update_fixed m msg) as (_ & Hpar & _).
    destruct (IH (update m msg)) as [Hb' Hp']; [rewrite Hpar; lia | rewrite Hpar; lia |].
    rewrite Hpar in *. split; [lia | exact Hp'].
Qed.

Lemma feed_fixed (msgs : list ProgressMsg) (m : Model) :
  config (feed m msgs) = config m /\ parallel (feed m msgs) = parallel m /\
  length (items (feed m msgs)) = length (items m).
Proof.
  revert m. induction msgs as [|msg tl IH]; intros m; [easy|].
  simpl feed. change (fold_left update tl (update m msg)) with (feed (update m msg) tl).
  destruct (IH (update m msg)) as (-> & -> & ->).
  destruct (update_fixed m msg) as (-> & -> & _).
  rewrite update_length. easy.
Qed.

Lemma launches_terminal (m : Model) (msg : ProgressMsg) :
  inRange m msg ->
  isTerminal (MsgStatus msg) = true ->
  launches m msg =
    snd (admitLoop (items (update m msg)) 0 (config m) (parallel m) (Int.decr (activeCount m))).
Proof.
  intros Hr Ht. rewrite update_items by exact Hr.
  unfold launches, handleProgress.
  rewrite (range_check_false _ _ Hr), Ht.
  destruct (admitLoop _ _ _ _ _). destruct (_ =? _); reflexivity.
Qed.

(** ** Out-of-range messages *)

(** C9. A message whose index is negative or at least the number of
    items is dropped: [handleProgress] returns the model it was given, no
    launch, and the command that waits for the next message; no item, no
    counter and not the [done] flag changes. *)
Theorem out_of_range_dropped (m : Model) (msg : ProgressMsg) :
  ID msg < 0 \/ Z.of_nat (length (items m)) <= ID msg ->
  handleProgress m msg = (m, [], WaitForProgress).
Proof.
  intros H. unfold handleProgress. rewrite range_check_true by exact H. reflexivity.
Qed.

Lemma out_of_range_dropped_witness :
  let m := runModel ["a"; "b"] exampleConfig 2 [startedMsg 0] in
  (ID (completedMsg 2 "x") < 0 \/ Z.of_nat (length (items m)) <= ID (completedMsg 2 "x")) /\
  handleProgress m (completedMsg 2 "x") = (m, [], WaitForProgress).
Proof.
  intros m.
  assert (H : ID (completedMsg 2 "x") < 0 \/
              Z.of_nat (length (items m)) <= ID (completedMsg 2 "x"))
    by (right; vm_compute; discriminate).
  split; [exact H | exact (out_of_range_dropped m (completedMsg 2 "x") H)].
Defined.

(** ** Frame *)

(** C10. An in-range message with index [i] leaves every item other than
    item [i] as it was, keeps the [URL] of item [i], and keeps the number
    of items, the configuration, the limit, the width and the [quitting]
    flag; what it can change is the rest of item [i], the three counters
    and the [done] flag computed from them. *)
Theorem handleProgress_frame (m : Model) (msg : ProgressMsg) :
  inRange m msg ->
  length (items (update m msg)) = length (items m) /\
  (forall j : nat, j <> Z.to_nat (ID msg) -> items (update m msg) !! j = items m !! j) /\
  URL <$> items (update m msg) !! Z.to_nat (ID msg) = URL <$> items m !! Z.to_nat (ID msg) /\
  config (update m msg) = config m /\ parallel (update m msg) = parallel m /\
  width (update m msg) = width m /\ quitting (update m msg) = quitting m.
Proof.
  intros Hr. split; [apply update_length|].
  rewrite update_items by exact Hr.
  split; [|split; [|apply update_fixed]].
  - intros j Hj. apply list_lookup_alter_ne. congruence.
  - rewrite list_lookup_alter_eq.
    destruct (items m !! Z.to_nat (ID msg)); reflexivity.
Qed.

Lemma handleProgress_frame_witness :
  let m := runModel ["a"; "b"] exampleConfig 2 [startedMsg 0; startedMsg 1] in
  let msg := failedMsg 1 "B side" in
  inRange m msg /\
  items (update m msg) !! 0%nat = items m !! 0%nat /\
  URL <$> items (update m msg) !! 1%nat = Some "b".
Proof.
  intros m msg.
  assert (Hr : inRange m msg) by (vm_compute; split; [discriminate | reflexivity]).
  destruct (handleProgress_frame m msg Hr) as (_ & Hothers & Hurl & _).
  split; [exact Hr|]. split.
  - apply Hothers. vm_compute. discriminate.
  - exact Hurl.
Defined.

(** ** Duplicate terminal messages *)

(** C2, counterexample. Two items, both started; [Completed] for item 0
    arrives twice.  [activeCount] ends at -2 and [completed] at 2 with one
    item completed, which also sets [done] while item 1 is still
    downloading. *)
Lemma duplicate_terminal_counterexample :
  let m := runModel ["a"; "b"] exampleConfig 2 [startedMsg 0; startedMsg 1] in
  let m2 := update (update m (completedMsg 0 "")) (completedMsg 0 "") in
  activeCount m2 = -2 /\ completed m2 = 2 /\
  countStatus StatusCompleted m2 = 1 /\ done m2 = true /\
  ~ 0 <= activeCount m2 /\
  ~ completed m2 + failed m2 <= completed m + failed m + 1 /\
  ~ duplicateSafe m (completedMsg 0 "").
Proof.
  vm_compute. repeat split; try reflexivity.
  - intros H. apply H. reflexivity.
  - intros H. apply H. reflexivity.
  - intros [_ H]. apply H. reflexivity.
Qed.

(** C2, as the code has it. [handleProgress] has no guard against a
    repeated terminal message: each application of an in-range terminal
    message increments [completed] (for [Completed]) or [failed] (for
    [Failed]), and decrements [activeCount], which the admission scan
    increments again only when it launches a [Pending] item.  Applied
    twice, the message is counted twice. *)
Theorem terminal_counted_each_time (m : Model) (msg : ProgressMsg) :
  inRange m msg ->
  isTerminal (MsgStatus msg) = true ->
  let m1 := update m msg in
  let m2 := update m1 msg in
  (activeCount m1 = Int.decr (activeCount m) /\ launches m msg = [] \/
   activeCount m1 = Int.incr (Int.decr (activeCount m)) /\ exists l, launches m msg = [l]) /\
  completed m2 =
    (if Status_eqb (MsgStatus msg) StatusCompleted
     then Int.incr (Int.incr (completed m)) else completed m) /\
  failed m2 =
    (if Status_eqb (MsgStatus msg) StatusCompleted
     then failed m else Int.incr (Int.incr (failed m))).
Proof.
  intros Hr Ht m1 m2.
  assert (Hr1 : inRange m1 msg).
  { unfold inRange, m1. rewrite update_length. exact Hr. }
  destruct (update_terminal_counts m msg Hr Ht) as (Hc & Hf & Ha).
  destruct (update_terminal_counts m1 msg Hr1 Ht) as (Hc1 & Hf1 & _).
  fold m2 in Hc1, Hf1. fold m1 in Hc, Hf, Ha.
  split.
  - destruct Ha as [[Ha Hl] | (_ & Ha & Hl)]; [left | right]; split; assumption.
  - rewrite Hc1, Hf1, Hc, Hf. destruct (Status_eqb _ _); split; reflexivity.
Qed.

Lemma terminal_counted_each_time_witness :
  let m := runModel ["a"; "b"] exampleConfig 2 [startedMsg 0; startedMsg 1] in
  let msg := completedMsg 0 "" in
  inRange m msg /\ isTerminal (MsgStatus msg) = true /\
  completed (update (update m msg) msg) = Int.incr (Int.incr (completed m)).
Proof.
  intros m msg.
  assert (Hr : inRange m msg) by (vm_compute; split; [discriminate | reflexivity]).
  assert (Ht : isTerminal (MsgStatus msg) = true) by reflexivity.
  split; [exact Hr|]. split; [exact Ht|].
  exact (proj1 (proj2 (terminal_counted_each_time m msg Hr Ht))).
Defined.

(** ** [activeCount] *)

(** C3, counterexample. One item, limit 1: [Init] launches item 0 and the
    model stays at [activeCount = 0]; when the worker's [Started] message
    has been applied one item is Running. *)
Lemma active_count_counterexample :
  let m := runModel ["a"] exampleConfig 1 [startedMsg 0] in
  snd (Init (NewModel ["a"] exampleConfig 1)) = [mkLaunch 0 "a" exampleConfig] /\
  activeCount m = 0 /\ activeItems m = 1 /\ ~ activeCountExact m.
Proof.
  vm_compute. repeat split; try reflexivity.
  intros [H _]. discriminate H.
Qed.

(** C3, as the code has it. In every state reached from [NewModel] and
    [Init] by applying messages (fewer than 2^63 of them, so that the
    64-bit counter cannot wrap), [activeCount] is at most the limit. *)
Theorem active_count_at_most_parallel
    (urls : list string) (cfg : Config) (par : Z) (msgs : list ProgressMsg) :
  0 <= par <= Int.max_int ->
  Z.of_nat (length msgs) < 2 ^ 63 ->
  activeCount (runModel urls cfg par msgs) <= par.
Proof.
  intros Hp Hn. unfold runModel, Init. cbn [fst].
  pose proof (feed_active_bounds msgs (NewModel urls cfg par)) as Hb.
  cbn [NewModel activeCount parallel] in Hb.
  unfold Int.min_int, Int.max_int in *. lia.
Qed.

Lemma active_count_at_most_parallel_witness :
  0 <= 2 <= Int.max_int /\
  Z.of_nat (length [startedMsg 0; startedMsg 1; completedMsg 1 ""]) < 2 ^ 63 /\
  activeCount (runModel ["a"; "b"; "c"] exampleConfig 2
                 [startedMsg 0; startedMsg 1; completedMsg 1 ""]) <= 2.
Proof.
  assert (Hp : 0 <= 2 <= Int.max_int) by (vm_compute; split; discriminate).
  assert (Hn : Z.of_nat (length [startedMsg 0; startedMsg 1; completedMsg 1 ""]) < 2 ^ 63)
    by reflexivity.
  split; [exact Hp|]. split; [exact Hn|].
  exact (active_count_at_most_parallel ["a"; "b"; "c"] exampleConfig 2 _ Hp Hn).
Defined.

(** ** Admission *)

(** The scenario of C6: items [A; B], limit 1.  [Init] launches A alone;
    when A's terminal message is applied, B is launched. *)
Example fifo_scenario :
  let m0 := NewModel ["A"; "B"] exampleConfig 1 in
  snd (Init m0) = [mkLaunch 0 "A" exampleConfig] /\
  launches (feed (fst (Init m0)) [startedMsg 0]) (completedMsg 0 "") =
    [mkLaunch 1 "B" exampleConfig] /\
  launches (feed (fst (Init m0)) [startedMsg 0]) (failedMsg 0 "") =
    [mkLaunch 1 "B" exampleConfig].
Proof. vm_compute. repeat split. Qed.

Lemma update_out_of_range (m : Model) (msg : ProgressMsg) :
  ~ inRange m msg -> update m msg = m.
Proof.
  intros Hr. unfold update, handleProgress.
  rewrite range_check_true; [reflexivity|]. unfold inRange in Hr. lia.
Qed.





(** ** A failed download *)

(** C1, counterexample. The worker sends [Started], the progress message
    with 10 percent, and [Failed]; the [Failed] message of line 120 has no
    [Progress] field, so it carries 0, and [handleProgress] stores it: the
    item ends [Failed] with a non-nil error and with [Progress] 0, not
    10. *)
Lemma failed_progress_counterexample :
  let msgs := sentBy 0 failingProc drainedSchedule in
  msgs = [startedMsg 0; mkMsg 0 StatusDownloading 10%float "" None; failedMsg 0 ""] /\
  items (runModel ["u"] exampleConfig 1 [startedMsg 0; mkMsg 0 StatusDownloading 10%float "" None])
    = [mkItem "u" "" StatusDownloading 10%float None] /\
  items (runModel ["u"] exampleConfig 1 msgs)
    = [mkItem "u" "" StatusFailed 0%float (Some "download failed")] /\
  ~ (Progress <$> items (runModel ["u"] exampleConfig 1 msgs) !! 0%nat = Some 10%float).
Proof.
  vm_compute. repeat split.
  intros H.
  apply (f_equal (fun o => match o with
                           | Some f => PrimFloat.eqb f 10%float
                           | None => false
                           end)) in H.
  vm_compute in H. discriminate H.
Qed.

(** C1, as the code has it. When [cmd.Wait] has returned an error the
    main goroutine sends the [Failed] message of line 120, and applying it
    sets the item's status to [Failed], its [Progress] to the 0 the
    message carries whatever it was before, and its [Error] to the non-nil
    "download failed"; the title is kept unless the worker knows one. *)
Theorem failed_event_applied
    (id : Z) (p : Proc) (w : Worker) (e : string) (m : Model) (item : Item) :
  WaitErr p = Some e ->
  pc w = PcSend ->
  0 <= id ->
  items m !! Z.to_nat id = Some item ->
  exists w' msg,
    wstep id p MvMain w = Some w' /\
    sent w' = sent w ++ [msg] /\
    items (update m msg) !! Z.to_nat id =
      Some (mkItem (URL item)
                   (if String.eqb (title w) "" then Title item else title w)
                   StatusFailed 0%float (Some "download failed")).
Proof.
  intros He Hpc Hid Hit.
  exists (mkWorker PcReturned (title w) (rdOut w) (rdErr w) (sent w ++ [failedMsg id (title w)])),
         (failedMsg id (title w)).
  split; [|split].
  - simpl. unfold mainStep. rewrite Hpc, He. reflexivity.
  - reflexivity.
  - assert (Hr : inRange m (failedMsg id (title w))).
    { unfold inRange. simpl. apply lookup_lt_Some in Hit. lia. }
    rewrite update_items by exact Hr. simpl ID.
    rewrite list_lookup_alter_eq, Hit. reflexivity.
Qed.

Lemma failed_event_applied_witness :
  let w := mkWorker PcSend "" (mkReader [] [] true) (mkReader [] [] true)
             [startedMsg 0; mkMsg 0 StatusDownloading 10%float "" None] in
  let m := runModel ["u"] exampleConfig 1 (sent w) in
  WaitErr failingProc = Some "exit status 1" /\ pc w = PcSend /\ 0 <= 0 /\
  items m !! Z.to_nat 0 = Some (mkItem "u" "" StatusDownloading 10%float None) /\
  exists w' msg,
    wstep 0 failingProc MvMain w = Some w' /\
    sent w' = sent w ++ [msg] /\
    items (update m msg) !! Z.to_nat 0 =
      Some (mkItem "u" "" StatusFailed 0%float (Some "download failed")).
Proof.
  intros w m.
  assert (He : WaitErr failingProc = Some "exit status 1") by reflexivity.
  assert (Hpc : pc w = PcSend) by reflexivity.
  assert (Hid : 0 <= 0) by (vm_compute; discriminate).
  assert (Hit : items m !! Z.to_nat 0 = Some (mkItem "u" "" StatusDownloading 10%float None))
    by reflexivity.
  repeat (split; [assumption|]).
  exact (failed_event_applied 0 failingProc w "exit status 1" m _ He Hpc Hid Hit).
Defined.

(** ** The worker, under every schedule *)

Lemma stdoutBody_quiet (line : string) : Forall quietAction (stdoutBody line).
Proof.
  unfold stdoutBody.
  repeat apply Forall_app_2;
    match goal with |- context [if ?b then _ else _] => destruct b end;
    repeat constructor.
Qed.

Lemma stderrBody_quiet (line : string) : Forall quietAction (stderrBody line).
Proof.
  unfold stderrBody.
  repeat apply Forall_app_2;
    match goal with |- context [if ?b then _ else _] => destruct b end;
    repeat constructor.
Qed.

Lemma terminalCount_snoc (ms : list ProgressMsg) (m : ProgressMsg) :
  terminalCount (ms ++ [m]) =
  (terminalCount ms + if isTerminal (MsgStatus m) then 1 else 0)%nat.
Proof.
  unfold terminalCount. rewrite List.filter_app, length_app. simpl.
  destruct (isTerminal (MsgStatus m)); reflexivity.
Qed.

Section OneWorker.

Variable id : Z.
Variable p : Proc.

Lemma head_snoc (c : MainPc) (ms : list ProgressMsg) (m : ProgressMsg) :
  (exists rest, ms = startedMsg id :: rest) ->
  c <> PcEntry ->
  c = PcEntry /\ ms ++ [m] = [] \/
  c <> PcEntry /\ exists rest, ms ++ [m] = startedMsg id :: rest.
Proof. intros [rest ->] Hc. right. split; [exact Hc|]. exists (rest ++ [m]). reflexivity. Qed.

Lemma winit_inv : WorkerInv id (winit p).
Proof. split; simpl; auto. Qed.

Lemma readerStep_inv (body : string -> list Action) (r r' : Reader)
    (ttl ttl' : string) (ch ch' : list ProgressMsg) :
  (forall l, Forall quietAction (body l)) ->
  Forall quietAction (pending r) ->
  readerStep id body r ttl ch = Some (r', ttl', ch') ->
  Forall quietAction (pending r') /\
  (ch' = ch \/ exists m, ch' = ch ++ [m] /\ ID m = id /\ isTerminal (MsgStatus m) = false).
Proof.
  intros Hb Hq. unfold readerStep.
  destruct (eof r); [discriminate|].
  destruct (pending r) as [|[t | st q] acts] eqn:Ep.
  - destruct (unread r) as [|l ls]; intros [= <- <- <-]; simpl; auto.
  - intros [= <- <- <-]. simpl. inversion Hq; subst. auto.
  - intros [= <- <- <-]. simpl. inversion Hq as [|? ? Hst Hrest]; subst.
    split; [exact Hrest|]. right. eexists. repeat split. exact Hst.
Qed.

Lemma wstep_inv (mv : Move) (w w' : Worker) :
  WorkerInv id w -> wstep id p mv w = Some w' -> WorkerInv id w'.
Proof.
  intros [Hids Hhead Hterm Hout Herr] Hs.
  destruct mv; simpl in Hs.
  - (* the main goroutine *)
    unfold mainStep in Hs.
    destruct (pc w) eqn:Epc; simpl in Hterm.
    + injection Hs as <-. destruct Hhead as [[_ He] | [Hne _]]; [|congruence].
      split; simpl; rewrite ?He; simpl; auto.
      right. split; [discriminate | eauto].
    + destruct Hhead as [[Hne _] | [_ Hrest]]; [discriminate|].
      destruct (StdoutPipeErr p) as [e|]; [|destruct (StderrPipeErr p) as [e|];
        [|destruct (StartErr p) as [e|]]];
        injection Hs as <-; split; simpl; auto;
        try (apply Forall_app_2; [exact Hids | repeat constructor]);
        try (apply head_snoc; [exact Hrest | discriminate]);
        try (rewrite terminalCount_snoc, Hterm; reflexivity);
        try (right; split; [discriminate | exact Hrest]).
    + destruct Hhead as [[Hne _] | [_ Hrest]]; [discriminate|].
      injection Hs as <-. split; simpl; auto;
        try (right; split; [discriminate | exact Hrest]).
    + destruct Hhead as [[Hne _] | [_ Hrest]]; [discriminate|].
      destruct (WaitErr p); injection Hs as <-; split; simpl; auto;
        try (apply Forall_app_2; [exact Hids | repeat constructor]);
        try (apply head_snoc; [exact Hrest | discriminate]);
        try (rewrite terminalCount_snoc, Hterm; reflexivity).
    + discriminate.
    + discriminate.
  - (* the stdout loop *)
    destruct (spawned (pc w)) eqn:Esp; [|discriminate].
    destruct (readerStep id stdoutBody (rdOut w) (title w) (sent w))
      as [[[r t] ch]|] eqn:Er; [|discriminate].
    injection Hs as <-.
    destruct (readerStep_inv _ _ _ _ _ _ _ stdoutBody_quiet Hout Er) as [Hq Hch].
    assert (Hne : pc w <> PcEntry) by (intros E; rewrite E in Esp; discriminate).
    destruct Hhead as [[He _] | [_ Hrest]]; [congruence|].
    destruct Hch as [-> | (m & -> & Hid & Hnt)]; split; simpl; auto.
    + apply Forall_app_2; [exact Hids | repeat constructor; exact Hid].
    + apply head_snoc; assumption.
    + rewrite terminalCount_snoc, Hterm, Hnt. lia.
  - (* the stderr loop *)
    destruct (spawned (pc w)) eqn:Esp; [|discriminate].
    destruct (readerStep id stderrBody (rdErr w) (title w) (sent w))
      as [[[r t] ch]|] eqn:Er; [|discriminate].
    injection Hs as <-.
    destruct (readerStep_inv _ _ _ _ _ _ _ stderrBody_quiet Herr Er) as [Hq Hch].
    assert (Hne : pc w <> PcEntry) by (intros E; rewrite E in Esp; discriminate).
    destruct Hhead as [[He _] | [_ Hrest]]; [congruence|].
    destruct Hch as [-> | (m & -> & Hid & Hnt)]; split; simpl; auto.
    + apply Forall_app_2; [exact Hids | repeat constructor; exact Hid].
    + apply head_snoc; assumption.
    + rewrite terminalCount_snoc, Hterm, Hnt. lia.
  - (* stdout closed *)
    destruct (pipesClosed (pc w)); [|discriminate].
    unfold readerClosed in Hs.
    destruct (eof (rdOut w)); [discriminate|].
    destruct (pending (rdOut w)); [|discriminate].
    injection Hs as <-. split; simpl; auto.
  - (* stderr closed *)
    destruct (pipesClosed (pc w)); [|discriminate].
    unfold readerClosed in Hs.
    destruct (eof (rdErr w)); [discriminate|].
    destruct (pending (rdErr w)); [|discriminate].
    injection Hs as <-. split; simpl; auto.
Qed.

Lemma wrun_inv (mvs : list Move) (w w' : Worker) :
  WorkerInv id w -> wrun id p mvs w = Some w' -> WorkerInv id w'.
Proof.
  revert w. induction mvs as [|mv tl IH]; intros w Hinv Hr; simpl in Hr.
  - injection Hr as <-. exact Hinv.
  - destruct (wstep id p mv w) as [w1|] eqn:Es; [|discriminate].
    apply (IH w1); [|exact Hr]. exact (wstep_inv mv w w1 Hinv Es).
Qed.

End OneWorker.

(** ** The statuses an item goes through *)

Lemma statusTrace_own (msgs : list ProgressMsg) (m : Model) (i : nat) (item : Item) :
  Forall (fun e => Z.to_nat (ID e) = i /\ 0 <= ID e) msgs ->
  items m !! i = Some item ->
  statusTrace m i msgs = Some (ItemStatus item) :: map (fun e => Some (MsgStatus e)) msgs.
Proof.
  revert m item. induction msgs as [|msg tl IH]; intros m item Hall Hit.
  - simpl. unfold statusAt. rewrite Hit. reflexivity.
  - inversion Hall as [|? ? [Hi H0] Htl]; subst.
    assert (Hr : inRange m msg).
    { unfold inRange. apply lookup_lt_Some in Hit. lia. }
    assert (Hit' : items (update m msg) !! Z.to_nat (ID msg) = Some (applyMsg msg item)).
    { rewrite update_items by exact Hr. rewrite list_lookup_alter_eq, Hit. reflexivity. }
    cbn [statusTrace]. rewrite (IH _ _ Htl Hit').
    unfold statusAt. rewrite Hit. reflexivity.
Qed.

(** C4, counterexample. With the loops fully drained before the terminal
    message, item 0 goes Pending, Running, Running, Converting, Running,
    Completed: the download line after the marker puts the item back to
    Running, which is not a move of the state machine. *)
Lemma status_path_counterexample :
  let msgs := sentBy 0 lateProgressProc lateProgressSchedule in
  let m := fst (Init (NewModel ["u"] exampleConfig 1)) in
  map MsgStatus msgs =
    [StatusDownloading; StatusDownloading; StatusConverting; StatusDownloading; StatusCompleted] /\
  statusTrace m 0 msgs =
    [Some StatusPending; Some StatusDownloading; Some StatusDownloading;
     Some StatusConverting; Some StatusDownloading; Some StatusCompleted] /\
  validPath (statusTrace m 0 msgs) = false.
Proof. vm_compute. repeat split. Qed.

(** C4, as the code has it. Under every schedule, the status recorded for
    the worker's item after each of its messages is the status the message
    carries, starting from the item's status before; the worker's first
    message is [Started], so Running is recorded before any Completed or
    Failed, and the messages hold at most one terminal status.
    [handleProgress] checks no transition. *)
Theorem status_follows_messages
    (id : Z) (p : Proc) (mvs : list Move) (w : Worker) (m : Model) (item : Item) :
  Download id p mvs = Some w ->
  0 <= id ->
  items m !! Z.to_nat id = Some item ->
  statusTrace m (Z.to_nat id) (sent w) =
    Some (ItemStatus item) :: map (fun e => Some (MsgStatus e)) (sent w) /\
  (sent w = [] \/ exists rest, sent w = startedMsg id :: rest) /\
  (terminalCount (sent w) <= 1)%nat.
Proof.
  intros Hr Hid Hit.
  destruct (wrun_inv id p mvs _ w (winit_inv id p) Hr) as [Hids Hhead Hterm _ _].
  split; [|split].
  - apply statusTrace_own; [|exact Hit].
    eapply Forall_impl; [exact Hids|]. intros e ->. split; [reflexivity | exact Hid].
  - destruct Hhead as [[_ He] | [_ Hrest]]; [left | right]; assumption.
  - rewrite Hterm. destruct (finished (pc w)); lia.
Qed.

Lemma status_follows_messages_witness :
  let m := fst (Init (NewModel ["u"] exampleConfig 1)) in
  exists w,
    Download 0 lateProgressProc lateProgressSchedule = Some w /\
    0 <= 0 /\
    items m !! Z.to_nat 0 = Some (mkItem "u" "" StatusPending 0%float None) /\
    statusTrace m (Z.to_nat 0) (sent w) =
      Some StatusPending :: map (fun e => Some (MsgStatus e)) (sent w) /\
    (sent w = [] \/ exists rest, sent w = startedMsg 0 :: rest) /\
    (terminalCount (sent w) <= 1)%nat.
Proof.
  intros m.
  destruct (Download 0 lateProgressProc lateProgressSchedule)
    as [w|] eqn:Hr; [|vm_compute in Hr; discriminate Hr].
  exists w.
  assert (Hid : 0 <= 0) by (vm_compute; discriminate).
  assert (Hit : items m !! Z.to_nat 0 = Some (mkItem "u" "" StatusPending 0%float None))
    by reflexivity.
  split; [reflexivity|]. split; [exact Hid|]. split; [exact Hit|].
  exact (status_follows_messages 0 lateProgressProc lateProgressSchedule w m _ Hr Hid Hit).
Defined.

(** ** The terminal message and the drain loops *)

(** C5, counterexample. Nothing makes the main goroutine wait for the
    drain loops: under [racySchedule] the channel holds Started, Failed,
    and then the 10 percent progress message, and neither loop has seen
    the end of its stream. *)
Lemma terminal_order_counterexample :
  sentBy 0 failingProc racySchedule =
    [startedMsg 0; failedMsg 0 ""; mkMsg 0 StatusDownloading 10%float "" None] /\
  ~ terminalAfterDrain 0 failingProc.
Proof.
  split; [vm_compute; reflexivity|].
  intros H.
  destruct (Download 0 failingProc racySchedule) as [w|] eqn:Hr;
    [|vm_compute in Hr; discriminate Hr].
  specialize (H racySchedule w Hr [startedMsg 0] (failedMsg 0 "")
                [mkMsg 0 StatusDownloading 10%float "" None]).
  vm_compute in Hr. injection Hr as <-.
  destruct (H eq_refl eq_refl) as [Hpost _]. discriminate Hpost.
Qed.

(** C5, as the code has it. Under every schedule the first message on the
    channel is [Started], and the channel holds exactly one terminal
    message once the main goroutine is done (after [cmd.Wait] has
    returned, or at a failed setup) and none before; the drain loops send
    no terminal message. *)
Theorem terminal_sent_once (id : Z) (p : Proc) (mvs : list Move) (w : Worker) :
  Download id p mvs = Some w ->
  (pc w = PcEntry /\ sent w = [] \/ exists rest, sent w = startedMsg id :: rest) /\
  terminalCount (sent w) = (if finished (pc w) then 1 else 0)%nat.
Proof.
  intros Hr.
  destruct (wrun_inv id p mvs _ w (winit_inv id p) Hr) as [_ Hhead Hterm _ _].
  split; [|exact Hterm].
  destruct Hhead as [H | [_ H]]; [left | right]; exact H.
Qed.

Lemma terminal_sent_once_witness :
  exists w,
    Download 0 failingProc racySchedule = Some w /\
    (pc w = PcEntry /\ sent w = [] \/ exists rest, sent w = startedMsg 0 :: rest) /\
    terminalCount (sent w) = (if finished (pc w) then 1 else 0)%nat.
Proof.
  destruct (Download 0 failingProc racySchedule) as [w|] eqn:Hr;
    [|vm_compute in Hr; discriminate Hr].
  exists w. split; [reflexivity|].
  exact (terminal_sent_once 0 failingProc racySchedule w Hr).
Defined.

(** ** The line classifier *)

Lemma no_match_short (r : regex) (line : string) :
  FindStringSubmatch r line = [] -> (1 <? length (FindStringSubmatch r line))%nat = false.
Proof. intros ->. reflexivity. Qed.

(** C7. The line "[download]  42.5% of ..." gives, in either drain loop,
    one progress message (status Downloading) with percent 42.5 and the
    title known so far; a line that none of the three patterns matches,
    the empty line for one, gives no action at all, so no message. *)
Theorem progress_line_classified :
  (forall (id : Z) (ttl : string),
     runActions id ttl (stdoutBody "[download]  42.5% of ...") =
       (ttl, [mkMsg id StatusDownloading 42.5%float ttl None]) /\
     runActions id ttl (stderrBody "[download]  42.5% of ...") =
       (ttl, [mkMsg id StatusDownloading 42.5%float ttl None])) /\
  (forall line : string,
     FindStringSubmatch destRe line = [] ->
     FindStringSubmatch downloadRe line = [] ->
     MatchString extractRe line = false ->
     stdoutBody line = [] /\ stderrBody line = [] /\
     forall id ttl, runActions id ttl (stdoutBody line) = (ttl, [])).
Proof.
  split.
  - intros id ttl. split; vm_compute; reflexivity.
  - intros line Hd Hp He.
    assert (Ho : stdoutBody line = []).
    { unfold stdoutBody. rewrite (no_match_short _ _ Hd), (no_match_short _ _ Hp), He.
      reflexivity. }
    assert (Hs : stderrBody line = []).
    { unfold stderrBody. rewrite (no_match_short _ _ Hd), (no_match_short _ _ Hp).
      reflexivity. }
    split; [exact Ho|]. split; [exact Hs|].
    intros id ttl. rewrite Ho. reflexivity.
Qed.

Lemma progress_line_classified_witness :
  FindStringSubmatch destRe "" = [] /\
  FindStringSubmatch downloadRe "" = [] /\
  MatchString extractRe "" = false /\
  stdoutBody "" = [] /\ stderrBody "" = [] /\
  forall id ttl, runActions id ttl (stdoutBody "") = (ttl, []).
Proof.
  assert (Hd : FindStringSubmatch destRe "" = []) by reflexivity.
  assert (Hp : FindStringSubmatch downloadRe "" = []) by reflexivity.
  assert (He : MatchString extractRe "" = false) by reflexivity.
  repeat (split; [assumption|]).
  exact (proj2 progress_line_classified "" Hd Hp He).
Defined.

Lemma ReplaceAll_underscore_get (s : string) (i : nat) :
  String.get i (ReplaceAll_underscore s) =
  (fun c => if Ascii.eqb c "_" then " "%char else c) <$> String.get i s.
Proof.
  revert i. induction s as [|c t IH]; intros i; simpl; [reflexivity|].
  destruct i as [|i]; [reflexivity | apply IH].
Qed.

(** C8. The line "Destination: /out/My_Song.webm" sets the title to
    "My Song": group 1 of the pattern is the file name without its
    extension, and every underscore of it becomes a space (the bytes that
    are not underscores stay).  The stdout loop sends the title in a
    message; the stderr loop only stores it. *)
Theorem destination_line_title :
  FindStringSubmatch destRe "Destination: /out/My_Song.webm" =
    ["Destination: /out/My_Song.webm"; "My_Song"; "webm"] /\
  (forall (id : Z) (ttl : string),
     runActions id ttl (stdoutBody "Destination: /out/My_Song.webm") =
       ("My Song", [mkMsg id StatusDownloading 0%float "My Song" None]) /\
     runActions id ttl (stderrBody "Destination: /out/My_Song.webm") = ("My Song", [])) /\
  (forall (s : string) (i : nat),
     String.get i (ReplaceAll_underscore s) =
     (fun c => if Ascii.eqb c "_" then " "%char else c) <$> String.get i s).
Proof.
  split; [vm_compute; reflexivity|]. split.
  - intros id ttl. split; vm_compute; reflexivity.
  - exact ReplaceAll_underscore_get.
Qed.

(** * The rest of the code: properties *)

(** ** The start of a run *)

Lemma startLoop_all_pending (urls : list string) (i : Z) (cfg : Config) (par started active : Z) :
  Int.min_int <= started ->
  par <= Int.max_int ->
  Int.min_int <= active ->
  active + Z.max 0 (par - started) <= Int.max_int ->
  let T := take (Z.to_nat (par - started)) urls in
  startLoop (map (fun url => mkItem url "" StatusPending 0%float None) urls)
            i cfg par started active =
    (active + Z.of_nat (length T),
     imap (fun k url => mkLaunch (i + Z.of_nat k) url cfg) T).
Proof.
  revert i started active. induction urls as [|u tl IH]; intros i started active Hs Hp Ha Hb T.
  - subst T. rewrite take_nil. simpl. f_equal. lia.
  - subst T. cbn [map startLoop].
    destruct (started >=? par) eqn:E.
    + rewrite Z.geb_leb in E. apply Z.leb_le in E.
      replace (Z.to_nat (par - started)) with 0%nat by lia. simpl. f_equal. lia.
    + rewrite Z.geb_leb in E. apply Z.leb_gt in E.
      cbn [ItemStatus Status_eqb URL].
      rewrite (incr_small started) by lia.
      rewrite (incr_small active) by lia.
      rewrite IH by lia.
      replace (Z.to_nat (par - started)) with (S (Z.to_nat (par - (started + 1)))) by lia.
      cbn [take length imap]. f_equal; [lia|].
      f_equal; [f_equal; lia|].
      apply imap_ext. intros k x _. simpl. f_equal. lia.
Qed.

(** X1. [Init] on a fresh model launches the first min(P, n) URLs, in list
    order, with their positions as ids, and launches nothing for a limit
    that is not positive.  The command counts the launches in its own
    copy of the model; the model the run goes on with is the fresh one,
    with [activeCount] 0. *)
Theorem init_launches_first_urls (urls : list string) (cfg : Config) (par : Z) :
  par <= Int.max_int ->
  let m0 := NewModel urls cfg par in
  let firsts := take (Z.to_nat par) urls in
  snd (Init m0) = imap (fun k url => mkLaunch (Z.of_nat k) url cfg) firsts /\
  activeCount (fst (startDownloads m0)) = Z.of_nat (length firsts) /\
  fst (Init m0) = m0 /\ activeCount m0 = 0.
Proof.
  intros Hp m0 firsts.
  assert (H : startDownloads m0 =
              (mkModel (items m0) cfg par (Z.of_nat (length firsts)) 0 0 80 false false,
               imap (fun k url => mkLaunch (Z.of_nat k) url cfg) firsts)).
  { unfold startDownloads, m0, NewModel.
    cbn [items config parallel activeCount completed failed width quitting done].
    rewrite startLoop_all_pending;
      try (unfold Int.min_int, Int.max_int in *; lia).
    rewrite Z.sub_0_r. reflexivity. }
  unfold Init. rewrite H. repeat split.
Qed.

Lemma init_launches_first_urls_witness :
  2 <= Int.max_int /\
  snd (Init (NewModel ["a"; "b"; "c"] exampleConfig 2)) =
    imap (fun k url => mkLaunch (Z.of_nat k) url exampleConfig) (take (Z.to_nat 2) ["a"; "b"; "c"]).
Proof.
  assert (Hp : 2 <= Int.max_int) by (vm_compute; discriminate).
  split; [exact Hp|].
  exact (proj1 (init_launches_first_urls ["a"; "b"; "c"] exampleConfig 2 Hp)).
Defined.

(** ** What a run never changes, and what it keeps *)

Lemma update_lookup (m : Model) (msg : ProgressMsg) (i : nat) (item : Item) :
  items m !! i = Some item ->
  exists item', items (update m msg) !! i = Some item' /\
                (item' = item \/ item' = applyMsg msg item).
Proof.
  intros Hit.
  destruct (Z_lt_dec (ID msg) 0) as [Hn | Hn];
    [unfold update, handleProgress; rewrite range_check_true by auto; eauto|].
  destruct (Z_le_dec (Z.of_nat (length (items m))) (ID msg)) as [Hg | Hg];
    [unfold update, handleProgress; rewrite range_check_true by auto; eauto|].
  rewrite update_items by (unfold inRange; lia).
  destruct (Nat.eq_dec (Z.to_nat (ID msg)) i) as [<- | Hne].
  - rewrite list_lookup_alter_eq, Hit. eauto.
  - rewrite list_lookup_alter_ne by exact Hne. eauto.
Qed.

Lemma update_urls (m : Model) (msg : ProgressMsg) :
  map URL (items (update m msg)) = map URL (items m).
Proof.
  apply list_eq. intros i. rewrite !list_lookup_fmap.
  destruct (items m !! i) as [item|] eqn:Hit.
  - destruct (update_lookup m msg i item Hit) as (item' & -> & [-> | ->]); reflexivity.
  - apply lookup_ge_None in Hit. rewrite <- (update_length m msg) in Hit.
    apply lookup_ge_None in Hit. rewrite Hit. reflexivity.
Qed.

(** X2. The URLs of the items, hence their number and order, are the same
    after any sequence of messages: a run never adds, removes, reorders
    or re-targets an item. *)
Theorem urls_fixed_along_run (msgs : list ProgressMsg) (m : Model) :
  map URL (items (feed m msgs)) = map URL (items m).
Proof.
  revert m. induction msgs as [|msg tl IH]; intros m; [reflexivity|].
  simpl feed. change (fold_left update tl (update m msg)) with (feed (update m msg) tl).
  rewrite IH. apply update_urls.
Qed.

(** X3. An item that has a non-nil [Error] keeps a non-nil [Error], and an
    item that has a non-empty [Title] keeps a non-empty [Title], whatever
    messages follow: no message clears either field, also not a later
    progress message that moves the item back to Downloading. *)
Theorem error_and_title_sticky (msgs : list ProgressMsg) (m : Model) (i : nat) (item : Item) :
  items m !! i = Some item ->
  exists item', items (feed m msgs) !! i = Some item' /\
    (Error item <> None -> Error item' <> None) /\
    (Title item <> "" -> Title item' <> "").
Proof.
  revert m item. induction msgs as [|msg tl IH]; intros m item Hit.
  - exists item. auto.
  - simpl feed. change (fold_left update tl (update m msg)) with (feed (update m msg) tl).
    destruct (update_lookup m msg i item Hit) as (item1 & Hit1 & Hcase).
    destruct (IH _ _ Hit1) as (item' & Hit' & He & Ht).
    exists item'. split; [exact Hit'|].
    destruct Hcase as [-> | ->]; [auto|].
    split; intros H.
    + apply He. simpl. destruct (MsgError msg); [discriminate | exact H].
    + apply Ht. simpl. destruct (String.eqb (MsgTitle msg) "") eqn:E; [exact H|].
      apply String.eqb_neq in E. exact E.
Qed.

Lemma error_and_title_sticky_witness :
  let m := runModel ["u"] exampleConfig 1 [startedMsg 0; failedMsg 0 "My Song"] in
  let late := [mkMsg 0 StatusDownloading 10%float "" None] in
  items m !! 0%nat = Some (mkItem "u" "My Song" StatusFailed 0%float (Some "download failed")) /\
  exists item', items (feed m late) !! 0%nat = Some item' /\
    (Some "download failed" <> None -> Error item' <> None) /\
    ("My Song" <> "" -> Title item' <> "").
Proof.
  intros m late.
  assert (Hit : items m !! 0%nat =
                Some (mkItem "u" "My Song" StatusFailed 0%float (Some "download failed")))
    by reflexivity.
  split; [exact Hit|].
  exact (error_and_title_sticky late m 0%nat _ Hit).
Defined.

(** ** Launches *)

Lemma admitLoop_launch (its : list Item) (i : Z) (cfg : Config) (par a : Z) (l : Launch) :
  In l (snd (admitLoop its i cfg par a)) ->
  snd (admitLoop its i cfg par a) = [l] /\ a < par /\
  exists (k : nat) (it : Item),
    its !! k = Some it /\ isPending it /\
    l = mkLaunch (i + Z.of_nat k) (URL it) cfg.
Proof.
  revert i. induction its as [|x tl IH]; intros i Hin; simpl in *; [contradiction|].
  destruct (Status_eqb (ItemStatus x) StatusPending && (a <? par)) eqn:E.
  - simpl in Hin. destruct Hin as [<- | []].
    apply andb_true_iff in E as [Ep Ea].
    split; [reflexivity|]. split; [apply Z.ltb_lt; exact Ea|].
    exists 0%nat, x. split; [reflexivity|]. split; [apply Status_eqb_eq; exact Ep|].
    f_equal. lia.
  - destruct (IH (i + 1) Hin) as (Hone & Ha & k & it & Hk & Hp & ->).
    split; [exact Hone|]. split; [exact Ha|].
    exists (S k), it. split; [exact Hk|]. split; [exact Hp|]. f_equal. lia.
Qed.

(** X4. Whatever the model and the message, [handleProgress] launches at
    most one download; it launches only on an in-range terminal message,
    and what it launches is an item that is [Pending] in the table once
    the message is recorded, under its own index, URL and the run's
    configuration.  Progress messages launch nothing. *)
Theorem launch_only_pending (m : Model) (msg : ProgressMsg) (l : Launch) :
  In l (launches m msg) ->
  launches m msg = [l] /\
  inRange m msg /\ isTerminal (MsgStatus msg) = true /\
  exists (k : nat) (it : Item),
    items (update m msg) !! k = Some it /\ isPending it /\
    l = mkLaunch (Z.of_nat k) (URL it) (config m).
Proof.
  intros Hin.
  destruct (Z_lt_dec (ID msg) 0) as [Hn | Hn];
    [unfold launches, handleProgress in Hin; rewrite range_check_true in Hin by auto;
     contradiction|].
  destruct (Z_le_dec (Z.of_nat (length (items m))) (ID msg)) as [Hg | Hg];
    [unfold launches, handleProgress in Hin; rewrite range_check_true in Hin by auto;
     contradiction|].
  assert (Hr : inRange m msg) by (unfold inRange; lia).
  destruct (isTerminal (MsgStatus msg)) eqn:Ht.
  2:{ destruct (update_nonterminal m msg Ht) as (_ & _ & _ & _ & Hl).
      rewrite Hl in Hin. contradiction. }
  rewrite (launches_terminal m msg Hr Ht) in *.
  destruct (admitLoop_launch _ _ _ _ _ _ Hin) as (Hone & _ & k & it & Hk & Hp & ->).
  split; [exact Hone|]. split; [exact Hr|]. split; [reflexivity|].
  exists k, it. split; [exact Hk|]. split; [exact Hp|]. f_equal.
Qed.

Lemma launch_only_pending_witness :
  let m := runModel ["A"; "B"] exampleConfig 1 [startedMsg 0] in
  let msg := completedMsg 0 "" in
  In (mkLaunch 1 "B" exampleConfig) (launches m msg) /\
  launches m msg = [mkLaunch 1 "B" exampleConfig].
Proof.
  intros m msg.
  assert (Hin : In (mkLaunch 1 "B" exampleConfig) (launches m msg)) by (left; reflexivity).
  split; [exact Hin|].
  exact (proj1 (launch_only_pending m msg _ Hin)).
Defined.

(** ** Repeating and reordering messages *)

Lemma applyMsg_twice (msg : ProgressMsg) (item : Item) :
  applyMsg msg (applyMsg msg item) = applyMsg msg item.
Proof.
  unfold applyMsg. simpl.
  destruct (String.eqb (MsgTitle msg) "") eqn:Et, (MsgError msg); reflexivity.
Qed.

(** X5. Applying a progress message (one that is not Completed or Failed)
    a second time changes nothing: the whole model is the same as after
    the first application.  Duplicates are harmless for every message but
    the terminal ones. *)
Theorem progress_message_idempotent (m : Model) (msg : ProgressMsg) :
  isTerminal (MsgStatus msg) = false ->
  update (update m msg) msg = update m msg.
Proof.
  intros Ht.
  destruct (Z_lt_dec (ID msg) 0) as [Hn | Hn];
    [rewrite !(update_out_of_range m msg) by (unfold inRange; lia); reflexivity|].
  destruct (Z_le_dec (Z.of_nat (length (items m))) (ID msg)) as [Hg | Hg];
    [rewrite !(update_out_of_range m msg) by (unfold inRange; lia); reflexivity|].
  assert (Hr : inRange m msg) by (unfold inRange; lia).
  assert (Hu : update m msg =
               mkModel (alter (applyMsg msg) (Z.to_nat (ID msg)) (items m)) (config m)
                       (parallel m) (activeCount m) (completed m) (failed m)
                       (width m) (quitting m) (done m)).
  { unfold update, handleProgress. rewrite (range_check_false _ _ Hr), Ht. reflexivity. }
  rewrite Hu at 1.
  unfold update at 1, handleProgress.
  rewrite range_check_false
    by (unfold inRange in *; cbn [items]; rewrite length_alter; exact Hr).
  rewrite Ht. cbn [fst items config parallel activeCount completed failed width quitting done].
  rewrite Hu. f_equal.
  rewrite list_alter_alter_eq. apply list_alter_ext; [|reflexivity].
  intros x _. apply applyMsg_twice.
Qed.

Lemma progress_message_idempotent_witness :
  let m := runModel ["u"] exampleConfig 1 [startedMsg 0] in
  let msg := mkMsg 0 StatusDownloading 42.5%float "My Song" None in
  isTerminal (MsgStatus msg) = false /\
  update (update m msg) msg = update m msg.
Proof.
  intros m msg.
  assert (Ht : isTerminal (MsgStatus msg) = false) by reflexivity.
  split; [exact Ht | exact (progress_message_idempotent m msg Ht)].
Defined.

(** X6. Messages for different items can be applied in either order: the
    item table is the same.  This is what lets the single consumer take
    the messages of concurrent workers in any interleaving. *)
Theorem messages_of_different_items_commute (m : Model) (a b : ProgressMsg) :
  ID a <> ID b ->
  items (update (update m a) b) = items (update (update m b) a).
Proof.
  intros Hne.
  assert (La : forall m' x, length (items m') = length (items m) ->
                            (inRange m' x <-> inRange m x)).
  { intros m' x Hl. unfold inRange. rewrite Hl. reflexivity. }
  destruct (Z_lt_dec (ID a) 0) as [Ha0 | Ha0];
    [|destruct (Z_le_dec (Z.of_nat (length (items m))) (ID a)) as [Ha1 | Ha1]].
  1,2: rewrite (update_out_of_range m a) by (unfold inRange; lia);
       rewrite (update_out_of_range (update m b) a)
         by (unfold inRange; rewrite update_length; lia); reflexivity.
  destruct (Z_lt_dec (ID b) 0) as [Hb0 | Hb0];
    [|destruct (Z_le_dec (Z.of_nat (length (items m))) (ID b)) as [Hb1 | Hb1]].
  1,2: rewrite (update_out_of_range m b) by (unfold inRange; lia);
       rewrite (update_out_of_range (update m a) b)
         by (unfold inRange; rewrite update_length; lia); reflexivity.
  assert (Hra : inRange m a) by (unfold inRange; lia).
  assert (Hrb : inRange m b) by (unfold inRange; lia).
  rewrite (update_items (update m a) b) by (apply La; [apply update_length | exact Hrb]).
  rewrite (update_items (update m b) a) by (apply La; [apply update_length | exact Hra]).
  rewrite (update_items m a Hra), (update_items m b Hrb).
  apply list_alter_alter_ne. lia.
Qed.

Lemma messages_of_different_items_commute_witness :
  let m := runModel ["a"; "b"] exampleConfig 2 [] in
  ID (startedMsg 0) <> ID (failedMsg 1 "x") /\
  items (update (update m (startedMsg 0)) (failedMsg 1 "x")) =
  items (update (update m (failedMsg 1 "x")) (startedMsg 0)).
Proof.
  intros m.
  assert (Hne : ID (startedMsg 0) <> ID (failedMsg 1 "x")) by (vm_compute; discriminate).
  split; [exact Hne | exact (messages_of_different_items_commute m _ _ Hne)].
Defined.

(** ** The completion counters and the end of the run *)

Lemma hits_inRange (m : Model) (s : Status) (msg : ProgressMsg) :
  hits (length (items m)) s msg = true <-> inRange m msg /\ MsgStatus msg = s.
Proof.
  unfold hits, inRange. rewrite !andb_true_iff, Z.leb_le, Z.ltb_lt, Status_eqb_eq. tauto.
Qed.

Lemma update_counts_step (m : Model) (msg : ProgressMsg) :
  Int.min_int <= completed m < Int.max_int ->
  Int.min_int <= failed m < Int.max_int ->
  completed (update m msg) =
    completed m + (if hits (length (items m)) StatusCompleted msg then 1 else 0) /\
  failed (update m msg) =
    failed m + (if hits (length (items m)) StatusFailed msg then 1 else 0).
Proof.
  intros Hc Hf.
  destruct (hits (length (items m)) StatusCompleted msg) eqn:E1.
  - apply hits_inRange in E1 as [Hr Hs].
    assert (E2 : hits (length (items m)) StatusFailed msg = false).
    { apply not_true_iff_false. intros H. apply hits_inRange in H as [_ H]. congruence. }
    rewrite E2.
    destruct (update_terminal_counts m msg Hr) as (-> & -> & _); [rewrite Hs; reflexivity|].
    rewrite Hs. simpl. rewrite incr_small by lia. lia.
  - destruct (hits (length (items m)) StatusFailed msg) eqn:E2.
    + apply hits_inRange in E2 as [Hr Hs].
      destruct (update_terminal_counts m msg Hr) as (-> & -> & _); [rewrite Hs; reflexivity|].
      rewrite Hs. simpl. rewrite incr_small by lia. lia.
    + assert (Hno : ~ inRange m msg \/ isTerminal (MsgStatus msg) = false).
      { destruct (isTerminal (MsgStatus msg)) eqn:Ht; [|now right]. left. intros Hr.
        destruct (MsgStatus msg) eqn:Hs; try discriminate.
        - apply not_true_iff_false in E1. apply E1, hits_inRange. auto.
        - apply not_true_iff_false in E2. apply E2, hits_inRange. auto. }
      destruct Hno as [Hr | Ht].
      * rewrite update_out_of_range by exact Hr. lia.
      * destruct (update_nonterminal m msg Ht) as (_ & -> & -> & _). lia.
Qed.

Lemma countMsgs_cons (n : nat) (s : Status) (e : ProgressMsg) (msgs : list ProgressMsg) :
  countMsgs n s (e :: msgs) = (if hits n s e then 1 else 0) + countMsgs n s msgs.
Proof.
  unfold countMsgs. simpl. destruct (hits n s e); simpl length; lia.
Qed.

Lemma countMsgs_bounds (n : nat) (s : Status) (msgs : list ProgressMsg) :
  0 <= countMsgs n s msgs <= Z.of_nat (length msgs).
Proof.
  induction msgs as [|e tl IH]; [unfold countMsgs; simpl; lia|].
  rewrite countMsgs_cons, length_cons. destruct (hits n s e); lia.
Qed.

Lemma countMsgs_disjoint (n : nat) (msgs : list ProgressMsg) :
  countMsgs n StatusCompleted msgs + countMsgs n StatusFailed msgs <= Z.of_nat (length msgs).
Proof.
  induction msgs as [|e tl IH]; [unfold countMsgs; simpl; lia|].
  rewrite !countMsgs_cons, length_cons. unfold hits.
  destruct (MsgStatus e); simpl; rewrite ?andb_false_r, ?andb_true_r;
    destruct ((0 <=? ID e) && (ID e <? Z.of_nat n)); lia.
Qed.

Lemma feed_counts (msgs : list ProgressMsg) (m : Model) :
  0 <= completed m -> 0 <= failed m ->
  completed m + Z.of_nat (length msgs) <= Int.max_int ->
  failed m + Z.of_nat (length msgs) <= Int.max_int ->
  completed (feed m msgs) = completed m + countMsgs (length (items m)) StatusCompleted msgs /\
  failed (feed m msgs) = failed m + countMsgs (length (items m)) StatusFailed msgs.
Proof.
  revert m. induction msgs as [|msg tl IH]; intros m Hc Hf Hcb Hfb.
  - unfold countMsgs. simpl. lia.
  - simpl feed. change (fold_left update tl (update m msg)) with (feed (update m msg) tl).
    rewrite length_cons, Nat2Z.inj_succ in *.
    destruct (update_counts_step m msg) as [Ec Ef];
      [unfold Int.min_int, Int.max_int in *; lia .. |].
    rewrite !countMsgs_cons.
    destruct (IH (update m msg)) as [-> ->];
      try (rewrite ?Ec, ?Ef;
           destruct (hits _ StatusCompleted msg), (hits _ StatusFailed msg); lia).
    rewrite update_length, Ec, Ef. lia.
Qed.

Lemma run_counts
    (urls : list string) (cfg : Config) (par : Z) (msgs : list ProgressMsg) :
  Z.of_nat (length msgs) < 2 ^ 63 ->
  completed (runModel urls cfg par msgs) = countMsgs (length urls) StatusCompleted msgs /\
  failed (runModel urls cfg par msgs) = countMsgs (length urls) StatusFailed msgs.
Proof.
  intros Hn. unfold runModel, Init. cbn [fst].
  destruct (feed_counts msgs (NewModel urls cfg par)) as [Hc Hf];
    cbn [NewModel completed failed]; try (unfold Int.max_int; lia).
  rewrite Hc, Hf. cbn [NewModel items completed failed]. rewrite length_map. lia.
Qed.

(** X7. Along a run of fewer than 2^63 messages, [completed] is the number
    of in-range Completed messages applied so far and [failed] the number
    of in-range Failed messages: every such message counts once, out of
    range and progress messages count nothing, and neither counter ever
    decreases. *)
Theorem counters_count_terminal_messages
    (urls : list string) (cfg : Config) (par : Z) (msgs : list ProgressMsg) :
  Z.of_nat (length msgs) < 2 ^ 63 ->
  completed (runModel urls cfg par msgs) = countMsgs (length urls) StatusCompleted msgs /\
  failed (runModel urls cfg par msgs) = countMsgs (length urls) StatusFailed msgs.
Proof.
  exact (run_counts urls cfg par msgs).
Qed.

Lemma counters_count_terminal_messages_witness :
  let msgs := [startedMsg 0; completedMsg 0 ""; failedMsg 1 ""; completedMsg 7 ""] in
  Z.of_nat (length msgs) < 2 ^ 63 /\
  completed (runModel ["a"; "b"; "c"] exampleConfig 2 msgs) = countMsgs 3 StatusCompleted msgs /\
  failed (runModel ["a"; "b"; "c"] exampleConfig 2 msgs) = countMsgs 3 StatusFailed msgs.
Proof.
  intros msgs.
  assert (Hn : Z.of_nat (length msgs) < 2 ^ 63) by reflexivity.
  split; [exact Hn|].
  exact (counters_count_terminal_messages ["a"; "b"; "c"] exampleConfig 2 msgs Hn).
Defined.

Lemma update_done (m : Model) (msg : ProgressMsg) :
  inRange m msg ->
  isTerminal (MsgStatus msg) = true ->
  done (update m msg) =
    (Int.wrap64 (completed (update m msg) + failed (update m msg)) =? Z.of_nat (length (items m)))
    || done m.
Proof.
  intros Hr Ht. unfold update, handleProgress.
  rewrite (range_check_false _ _ Hr), Ht.
  destruct (admitLoop _ _ _ _ _). rewrite length_alter.
  destruct (_ =? _) eqn:E; cbn [fst done completed failed]; rewrite E; reflexivity.
Qed.

Lemma feed_snoc (m : Model) (msgs : list ProgressMsg) (msg : ProgressMsg) :
  feed m (msgs ++ [msg]) = update (feed m msgs) msg.
Proof. unfold feed. rewrite fold_left_app. reflexivity. Qed.

Lemma countMsgs_snoc (n : nat) (s : Status) (msgs : list ProgressMsg) (e : ProgressMsg) :
  countMsgs n s (msgs ++ [e]) = countMsgs n s msgs + (if hits n s e then 1 else 0).
Proof.
  unfold countMsgs. rewrite List.filter_app, length_app. simpl.
  destruct (hits n s e); simpl length; lia.
Qed.

Lemma done_step_arith (d : bool) (len T X : Z) :
  (d = true <-> 0 < len <= T) -> 0 < len -> X = T + 1 ->
  (X = len \/ d = true <-> 0 < len <= X).
Proof.
  intros IH Hl ->. destruct d.
  - pose proof (proj1 IH eq_refl). split; [intros _; lia | intros _; right; reflexivity].
  - assert (Hnot : ~ 0 < len <= T) by (intros H; apply IH in H; discriminate).
    split; [intros [H | H]; [lia | discriminate] | intros H; left; lia].
Qed.

(** X8. Along a run of fewer than 2^63 messages, [done] is set exactly
    when the in-range terminal messages applied so far are at least as
    many as the items (and there is an item): the run ends with the
    message that brings the count to the number of items, not before, and
    [done] is never reset. *)
Theorem done_when_all_items_terminated
    (urls : list string) (cfg : Config) (par : Z) (msgs : list ProgressMsg) :
  Z.of_nat (length msgs) < 2 ^ 63 ->
  done (runModel urls cfg par msgs) = true <->
  0 < Z.of_nat (length urls) <=
    countMsgs (length urls) StatusCompleted msgs + countMsgs (length urls) StatusFailed msgs.
Proof.
  induction msgs as [|msg l IH] using rev_ind; intros Hn.
  - unfold runModel, Init, countMsgs. simpl. split; [discriminate | lia].
  - rewrite length_app, Nat2Z.inj_add in Hn. simpl in Hn.
    specialize (IH ltac:(lia)).
    destruct (run_counts urls cfg par l ltac:(lia)) as [Hc Hf].
    destruct (run_counts urls cfg par (l ++ [msg])) as [Hc' Hf'];
      [rewrite length_app, Nat2Z.inj_add; simpl; lia|].
    pose proof (countMsgs_bounds (length urls) StatusCompleted l) as Bc.
    pose proof (countMsgs_bounds (length urls) StatusFailed l) as Bf.
    pose proof (countMsgs_disjoint (length urls) l) as Bd.
    unfold runModel, Init in *. cbn [fst] in *.
    rewrite feed_snoc in *.
    set (m := feed (NewModel urls cfg par) l) in *.
    assert (Hlen : length (items m) = length urls).
    { unfold m. destruct (feed_fixed l (NewModel urls cfg par)) as (_ & _ & ->).
      cbn [NewModel items]. apply length_map. }
    rewrite !countMsgs_snoc in *. rewrite <- Hlen in *.
    destruct (hits (length (items m)) StatusCompleted msg) eqn:E1;
      [|destruct (hits (length (items m)) StatusFailed msg) eqn:E2].
    + pose proof E1 as E1'. apply hits_inRange in E1' as [Hr Hs].
      assert (E2 : hits (length (items m)) StatusFailed msg = false).
      { apply not_true_iff_false. intros H. apply hits_inRange in H as [_ H]. congruence. }
      rewrite E2 in *.
      rewrite (update_done m msg Hr) by (rewrite Hs; reflexivity).
      rewrite Hc', Hf', wrap64_id by (unfold Int.min_int, Int.max_int; lia).
      rewrite orb_true_iff, Z.eqb_eq. unfold inRange in Hr.
      eapply done_step_arith; [exact IH | lia | lia].
    + pose proof E2 as E2'. apply hits_inRange in E2' as [Hr Hs].
      rewrite (update_done m msg Hr) by (rewrite Hs; reflexivity).
      rewrite Hc', Hf', wrap64_id by (unfold Int.min_int, Int.max_int; lia).
      rewrite orb_true_iff, Z.eqb_eq. unfold inRange in Hr.
      eapply done_step_arith; [exact IH | lia | lia].
    + assert (Hno : ~ inRange m msg \/ isTerminal (MsgStatus msg) = false).
      { destruct (isTerminal (MsgStatus msg)) eqn:Ht; [|now right]. left. intros Hr.
        destruct (MsgStatus msg) eqn:Hs; try discriminate.
        - apply not_true_iff_false in E1. apply E1, hits_inRange. auto.
        - apply not_true_iff_false in E2. apply E2, hits_inRange. auto. }
      assert (Hd : done (update m msg) = done m).
      { destruct Hno as [Hr | Ht]; [rewrite update_out_of_range by exact Hr; reflexivity|].
        destruct (update_nonterminal m msg Ht) as (_ & _ & _ & -> & _). reflexivity. }
      rewrite Hd, !Z.add_0_r. exact IH.
Qed.

Lemma done_when_all_items_terminated_witness :
  let msgs := [startedMsg 0; startedMsg 1; failedMsg 1 ""; completedMsg 0 ""] in
  Z.of_nat (length msgs) < 2 ^ 63 /\
  (done (runModel ["a"; "b"] exampleConfig 2 msgs) = true <->
   0 < Z.of_nat (length ["a"; "b"]) <=
     countMsgs (length ["a"; "b"]) StatusCompleted msgs +
     countMsgs (length ["a"; "b"]) StatusFailed msgs).
Proof.
  intros msgs.
  assert (Hn : Z.of_nat (length msgs) < 2 ^ 63) by reflexivity.
  split; [exact Hn|].
  exact (done_when_all_items_terminated ["a"; "b"] exampleConfig 2 msgs Hn).
Defined.

(** ** The shape of a worker's messages, under every schedule *)

Lemma ReplaceAll_no_underscore (s : string) :
  noUnderscore (ReplaceAll_underscore s) = true.
Proof.
  induction s as [|c t IH]; [reflexivity|]. simpl.
  destruct (Ascii.eqb c "_") eqn:E; simpl; [exact IH | rewrite E; exact IH].
Qed.

Lemma stdoutBody_shape (line : string) : Forall actionShape (stdoutBody line).
Proof.
  unfold stdoutBody.
  repeat apply Forall_app_2;
    match goal with |- context [if ?b then _ else _] => destruct b end;
    repeat first [apply List.Forall_cons | apply List.Forall_nil]; cbn [actionShape];
    auto using ReplaceAll_no_underscore.
Qed.

Lemma stderrBody_shape (line : string) : Forall actionShape (stderrBody line).
Proof.
  unfold stderrBody.
  repeat apply Forall_app_2;
    match goal with |- context [if ?b then _ else _] => destruct b end;
    repeat first [apply List.Forall_cons | apply List.Forall_nil]; cbn [actionShape];
    auto using ReplaceAll_no_underscore.
Qed.

Lemma mainStep_setup (id : Z) (p : Proc) (w : Worker) :
  pc w = PcSetup ->
  mainStep id p w =
    match setupErr p with
    | Some e => Some (mkWorker PcAborted (title w) (rdOut w) (rdErr w)
                               (sent w ++ [setupFailedMsg id e]))
    | None => Some (mkWorker PcWait (title w) (rdOut w) (rdErr w) (sent w))
    end.
Proof.
  intros Hpc. unfold mainStep, setupErr. rewrite Hpc.
  destruct (StdoutPipeErr p), (StderrPipeErr p), (StartErr p); reflexivity.
Qed.

Section OneWorkerShape.

Variable id : Z.
Variable p : Proc.

Lemma winit_shape : WorkerShape id p (winit p).
Proof. split; simpl; auto; discriminate. Qed.

Lemma Forall_snoc_intro {A : Type} (P : A -> Prop) (l : list A) (x : A) :
  Forall P l -> P x -> Forall P (l ++ [x]).
Proof. intros Hl Hx. apply Forall_app_2; [exact Hl|]. constructor; [exact Hx | constructor]. Qed.

Lemma startedMsg_shape : msgShape id p (startedMsg id).
Proof. unfold msgShape, progressShape. simpl. auto 10. Qed.

Lemma setupFailedMsg_shape (e : string) :
  setupErr p = Some e -> msgShape id p (setupFailedMsg id e).
Proof. intros He. unfold msgShape, terminalOf. simpl. rewrite He. auto. Qed.

Lemma failedMsg_shape (t e : string) :
  setupErr p = None -> WaitErr p = Some e -> noUnderscore t = true ->
  msgShape id p (failedMsg id t).
Proof. intros Hs He Ht. unfold msgShape, terminalOf. simpl. rewrite Hs, He. auto. Qed.

Lemma completedMsg_shape (t : string) :
  setupErr p = None -> WaitErr p = None -> noUnderscore t = true ->
  msgShape id p (completedMsg id t).
Proof. intros Hs He Ht. unfold msgShape, terminalOf. simpl. rewrite Hs, He. auto. Qed.

Lemma readerStep_shape (body : string -> list Action) (r r' : Reader)
    (ttl ttl' : string) (ch ch' : list ProgressMsg) :
  (forall l, Forall actionShape (body l)) ->
  Forall actionShape (pending r) ->
  noUnderscore ttl = true ->
  readerStep id body r ttl ch = Some (r', ttl', ch') ->
  Forall actionShape (pending r') /\ noUnderscore ttl' = true /\
  (ch' = ch \/ exists m, ch' = ch ++ [m] /\ msgShape id p m).
Proof.
  intros Hb Hq Ht. unfold readerStep.
  destruct (eof r); [discriminate|].
  destruct (pending r) as [|[t | st q] acts] eqn:Ep.
  - destruct (unread r) as [|l ls]; intros [= <- <- <-]; simpl;
      (split; [first [apply Hb | constructor] | auto]).
  - intros [= <- <- <-]. simpl. inversion Hq; subst. auto.
  - intros [= <- <- <-]. simpl. inversion Hq as [|? ? Hst Hrest]; subst.
    split; [exact Hrest|]. split; [exact Ht|]. right. eexists. split; [reflexivity|].
    unfold msgShape, progressShape. simpl.
    destruct Hst as [-> | [-> ->]]; simpl; repeat split; auto.
Qed.

Lemma abort_not_spawned (w : Worker) (e : string) :
  (pc w = PcEntry /\ sent w = [] \/
   pc w = PcSetup /\ sent w = [startedMsg id] \/
   pc w = PcAborted /\ sent w = [startedMsg id; setupFailedMsg id e]) ->
  spawned (pc w) = false /\ pipesClosed (pc w) = false.
Proof. intros [[-> _] | [[-> _] | [-> _]]]; split; reflexivity. Qed.

Lemma wstep_shape (mv : Move) (w w' : Worker) :
  WorkerShape id p w -> wstep id p mv w = Some w' -> WorkerShape id p w'.
Proof.
  intros [Hsent Htitle Hout Herr Hsetup Hok] Hs.
  assert (Hsp : spawned (pc w) = true \/ pipesClosed (pc w) = true -> setupErr p = None).
  { intros Hor. destruct (setupErr p) as [e|] eqn:Ee; [|reflexivity].
    destruct (Hsetup e eq_refl) as (_ & _ & Hpts).
    destruct (abort_not_spawned w e Hpts) as [H1 H2].
    destruct Hor; congruence. }
  destruct mv; simpl in Hs.
  - (* the main goroutine *)
    destruct (pc w) eqn:Epc.
    + unfold mainStep in Hs. rewrite Epc in Hs. injection Hs as <-.
      split; cbn [sent title rdOut rdErr pending pc]; auto; try discriminate.
      * apply Forall_snoc_intro; [exact Hsent | apply startedMsg_shape].
      * intros e He. destruct (Hsetup e He) as (Ho & Hr & [[_ Hn] | [[Hc _] | [Hc _]]]);
          try congruence.
        rewrite Hn. split; [exact Ho|]. split; [exact Hr|]. right. left. split; reflexivity.
    + rewrite mainStep_setup in Hs by exact Epc.
      destruct (setupErr p) as [e|] eqn:Ee; injection Hs as <-;
        split; cbn [sent title rdOut rdErr pending pc]; auto; try discriminate;
        try (intros e' He'; congruence).
      * apply Forall_snoc_intro; [exact Hsent | apply setupFailedMsg_shape; exact Ee].
      * intros e' He'. rewrite Ee in He'. injection He' as <-.
        destruct (Hsetup e eq_refl) as (Ho & Hr & [[Hc _] | [[_ Hn] | [Hc _]]]);
          try congruence.
        rewrite Hn. split; [exact Ho|]. split; [exact Hr|]. right. right. split; reflexivity.
    + unfold mainStep in Hs. rewrite Epc in Hs. injection Hs as <-.
      pose proof (Hsp (or_introl eq_refl)) as Hnone.
      split; cbn [sent title rdOut rdErr pending pc]; auto; try discriminate.
      intros e He. congruence.
    + unfold mainStep in Hs. rewrite Epc in Hs.
      pose proof (Hsp (or_introl eq_refl)) as Hnone.
      destruct (WaitErr p) as [e|] eqn:Ew; injection Hs as <-;
        split; cbn [sent title rdOut rdErr pending pc]; auto; try discriminate;
        try (intros e' He'; congruence).
      * apply Forall_snoc_intro; [exact Hsent | exact (failedMsg_shape _ e Hnone Ew Htitle)].
      * apply Forall_snoc_intro; [exact Hsent | exact (completedMsg_shape _ Hnone Ew Htitle)].
    + unfold mainStep in Hs. rewrite Epc in Hs. discriminate.
    + unfold mainStep in Hs. rewrite Epc in Hs. discriminate.
  - (* the stdout loop *)
    destruct (spawned (pc w)) eqn:Esp; [|discriminate].
    pose proof (Hsp (or_introl eq_refl)) as Hnone.
    destruct (readerStep id stdoutBody (rdOut w) (title w) (sent w))
      as [[[r t] ch]|] eqn:Er; [|discriminate].
    injection Hs as <-.
    destruct (readerStep_shape _ _ _ _ _ _ _ stdoutBody_shape Hout Htitle Er)
      as (Hq & Ht & Hch).
    split; cbn [sent title rdOut rdErr pending pc]; auto.
    + destruct Hch as [-> | (m & -> & Hm)]; [exact Hsent|].
      apply Forall_snoc_intro; assumption.
    + intros e He. congruence.
  - (* the stderr loop *)
    destruct (spawned (pc w)) eqn:Esp; [|discriminate].
    pose proof (Hsp (or_introl eq_refl)) as Hnone.
    destruct (readerStep id stderrBody (rdErr w) (title w) (sent w))
      as [[[r t] ch]|] eqn:Er; [|discriminate].
    injection Hs as <-.
    destruct (readerStep_shape _ _ _ _ _ _ _ stderrBody_shape Herr Htitle Er)
      as (Hq & Ht & Hch).
    split; cbn [sent title rdOut rdErr pending pc]; auto.
    + destruct Hch as [-> | (m & -> & Hm)]; [exact Hsent|].
      apply Forall_snoc_intro; assumption.
    + intros e He. congruence.
  - (* stdout closed *)
    destruct (pipesClosed (pc w)) eqn:Ecl; [|discriminate].
    pose proof (Hsp (or_intror eq_refl)) as Hnone.
    unfold readerClosed in Hs.
    destruct (eof (rdOut w)); [discriminate|].
    destruct (pending (rdOut w)); [|discriminate].
    injection Hs as <-. split; cbn [sent title rdOut rdErr pending pc]; auto.
    intros e He. congruence.
  - (* stderr closed *)
    destruct (pipesClosed (pc w)) eqn:Ecl; [|discriminate].
    pose proof (Hsp (or_intror eq_refl)) as Hnone.
    unfold readerClosed in Hs.
    destruct (eof (rdErr w)); [discriminate|].
    destruct (pending (rdErr w)); [|discriminate].
    injection Hs as <-. split; cbn [sent title rdOut rdErr pending pc]; auto.
    intros e He. congruence.
Qed.

Lemma wrun_shape (mvs : list Move) (w w' : Worker) :
  WorkerShape id p w -> wrun id p mvs w = Some w' -> WorkerShape id p w'.
Proof.
  revert w. induction mvs as [|mv tl IH]; intros w Hinv Hr; simpl in Hr.
  - injection Hr as <-. exact Hinv.
  - destruct (wstep id p mv w) as [w1|] eqn:Es; [|discriminate].
    apply (IH w1); [|exact Hr]. exact (wstep_shape mv w w1 Hinv Es).
Qed.

End OneWorkerShape.

(** X9. Under every schedule, every message a worker has sent carries the
    worker's own id, and a message that is not terminal carries no error
    and is either Downloading or Converting at 100 percent. *)
Theorem worker_messages_shape
    (id : Z) (p : Proc) (mvs : list Move) (w : Worker) (m : ProgressMsg) :
  Download id p mvs = Some w ->
  In m (sent w) ->
  ID m = id /\
  (isTerminal (MsgStatus m) = false ->
   MsgError m = None /\
   (MsgStatus m = StatusDownloading \/
    MsgStatus m = StatusConverting /\ MsgProgress m = 100%float)).
Proof.
  intros Hr Hin.
  destruct (wrun_shape id p mvs _ w (winit_shape id p) Hr) as [Hsent _ _ _ _ _].
  rewrite List.Forall_forall in Hsent. destruct (Hsent m Hin) as (Hid & _ & Hsh).
  split; [exact Hid|]. intros Ht. rewrite Ht in Hsh. exact Hsh.
Qed.

Lemma worker_messages_shape_witness :
  exists w,
    Download 3 lateProgressProc lateProgressSchedule = Some w /\
    In (mkMsg 3 StatusConverting 100%float "My Song" None) (sent w) /\
    ID (mkMsg 3 StatusConverting 100%float "My Song" None) = 3.
Proof.
  destruct (Download 3 lateProgressProc lateProgressSchedule) as [w|] eqn:Hr;
    [|vm_compute in Hr; discriminate Hr].
  exists w. split; [reflexivity|].
  assert (Hin : In (mkMsg 3 StatusConverting 100%float "My Song" None) (sent w)).
  { vm_compute in Hr. injection Hr as <-. simpl. auto. }
  split; [exact Hin|].
  exact (proj1 (worker_messages_shape 3 lateProgressProc lateProgressSchedule w _ Hr Hin)).
Defined.

(** X10. Under every schedule, a terminal message on the channel is the
    one the process calls for: after a failed setup, Failed with the
    setup error; after a clean exit, Completed at 100 percent with no
    error; after a failing exit, Failed at 0 percent with the error
    "download failed".  In the last two the title is the one known when
    the message was sent. *)
Theorem terminal_message_content
    (id : Z) (p : Proc) (mvs : list Move) (w : Worker) (m : ProgressMsg) :
  Download id p mvs = Some w ->
  In m (sent w) ->
  isTerminal (MsgStatus m) = true ->
  match setupErr p with
  | Some e => m = mkMsg id StatusFailed 0%float "" (Some e)
  | None =>
      match WaitErr p with
      | Some _ => m = mkMsg id StatusFailed 0%float (MsgTitle m) (Some "download failed")
      | None => m = mkMsg id StatusCompleted 100%float (MsgTitle m) None
      end
  end.
Proof.
  intros Hr Hin Ht.
  destruct (wrun_shape id p mvs _ w (winit_shape id p) Hr) as [Hsent _ _ _ _ _].
  rewrite List.Forall_forall in Hsent. destruct (Hsent m Hin) as (_ & _ & Hsh).
  rewrite Ht in Hsh. exact Hsh.
Qed.

Lemma terminal_message_content_witness :
  exists w,
    Download 0 failingProc racySchedule = Some w /\
    In (failedMsg 0 "") (sent w) /\
    isTerminal (MsgStatus (failedMsg 0 "")) = true /\
    failedMsg 0 "" = mkMsg 0 StatusFailed 0%float "" (Some "download failed").
Proof.
  destruct (Download 0 failingProc racySchedule) as [w|] eqn:Hr;
    [|vm_compute in Hr; discriminate Hr].
  exists w. split; [reflexivity|].
  assert (Hin : In (failedMsg 0 "") (sent w)).
  { vm_compute in Hr. injection Hr as <-. simpl. auto. }
  split; [exact Hin|]. split; [reflexivity|].
  exact (terminal_message_content 0 failingProc racySchedule w _ Hr Hin eq_refl).
Defined.

(** X11. When a pipe cannot be created or the process cannot be started,
    the worker sends Started and then Failed with that error and nothing
    else, under every schedule; no drain loop runs, so no line of output
    is read. *)
Theorem setup_failure_stops_worker
    (id : Z) (p : Proc) (e : string) (mvs : list Move) (w : Worker) :
  setupErr p = Some e ->
  Download id p mvs = Some w ->
  (sent w = [] \/ sent w = [startedMsg id] \/
   sent w = [startedMsg id; setupFailedMsg id e]) /\
  rdOut w = mkReader [] (stdoutLines p) false /\
  rdErr w = mkReader [] (stderrLines p) false /\
  (finished (pc w) = true -> sent w = [startedMsg id; setupFailedMsg id e]).
Proof.
  intros He Hr.
  destruct (wrun_shape id p mvs _ w (winit_shape id p) Hr) as [_ _ _ _ Hsetup _].
  destruct (Hsetup e He) as (Ho & Hre & Hpts).
  split; [|split; [exact Ho|split; [exact Hre|]]].
  - destruct Hpts as [[_ H] | [[_ H] | [_ H]]]; auto.
  - destruct Hpts as [[Hc H] | [[Hc H] | [Hc H]]]; rewrite Hc; simpl;
      try discriminate. intros _. exact H.
Qed.

Lemma setup_failure_stops_worker_witness :
  let p := mkProc None (Some "pipe: too many open files") None ["[download]  10.0%"] [] None in
  exists w,
    setupErr p = Some "pipe: too many open files" /\
    Download 0 p [MvMain; MvMain] = Some w /\
    (finished (pc w) = true ->
     sent w = [startedMsg 0; setupFailedMsg 0 "pipe: too many open files"]).
Proof.
  intros p.
  destruct (Download 0 p [MvMain; MvMain]) as [w|] eqn:Hr;
    [|vm_compute in Hr; discriminate Hr].
  exists w.
  assert (He : setupErr p = Some "pipe: too many open files") by reflexivity.
  split; [exact He|]. split; [reflexivity|].
  exact (proj2 (proj2 (proj2 (setup_failure_stops_worker 0 p _ _ w He Hr)))).
Defined.

(** X12. Under every schedule, no title a worker sends, and not the title
    it holds, contains an underscore: every title comes from
    [strings.ReplaceAll(_, "_", " ")] or is empty. *)
Theorem titles_have_no_underscore
    (id : Z) (p : Proc) (mvs : list Move) (w : Worker) :
  Download id p mvs = Some w ->
  noUnderscore (title w) = true /\
  Forall (fun m => noUnderscore (MsgTitle m) = true) (sent w).
Proof.
  intros Hr.
  destruct (wrun_shape id p mvs _ w (winit_shape id p) Hr) as [Hsent Htitle _ _ _ _].
  split; [exact Htitle|].
  eapply Forall_impl; [exact Hsent|]. intros m (_ & H & _). exact H.
Qed.

Lemma titles_have_no_underscore_witness :
  exists w,
    Download 0 lateProgressProc lateProgressSchedule = Some w /\
    title w = "My Song" /\ noUnderscore (title w) = true.
Proof.
  destruct (Download 0 lateProgressProc lateProgressSchedule) as [w|] eqn:Hr;
    [|vm_compute in Hr; discriminate Hr].
  exists w. split; [reflexivity|].
  split; [vm_compute in Hr; injection Hr as <-; reflexivity|].
  exact (proj1 (titles_have_no_underscore 0 lateProgressProc lateProgressSchedule w Hr)).
Defined.

(** ** The matcher against the meaning of the patterns *)

Local Infix "+++" := String.append (right associativity, at level 60).

Lemma append_nil_r (s : string) : s +++ "" = s.
Proof. induction s as [|c t IH]; simpl; [reflexivity | rewrite IH; reflexivity]. Qed.

Lemma append_assoc (a b c : string) : (a +++ b) +++ c = a +++ b +++ c.
Proof. induction a as [|x t IH]; simpl; [reflexivity | rewrite IH; reflexivity]. Qed.

Lemma length_append (a b : string) :
  String.length (a +++ b) = (String.length a + String.length b)%nat.
Proof. induction a as [|x t IH]; simpl; [reflexivity | rewrite IH; reflexivity]. Qed.

Lemma takeStr_append (w t : string) : takeStr (String.length w) (w +++ t) = w.
Proof. induction w as [|x w IH]; simpl; [destruct t; reflexivity | rewrite IH; reflexivity]. Qed.

Lemma consumed_append (w t : string) : consumed (w +++ t) t = w.
Proof.
  unfold consumed. rewrite length_append.
  replace (String.length w + String.length t - String.length t)%nat
    with (String.length w) by lia.
  apply takeStr_append.
Qed.

Lemma matchStr_append {R : Type} (lit t : string) (k : string -> option R) :
  matchStr lit (lit +++ t) k = k t.
Proof.
  induction lit as [|c lit IH]; simpl; [reflexivity|].
  rewrite Ascii.eqb_refl. exact IH.
Qed.

Lemma matchStr_sound {R : Type} (lit s : string) (k : string -> option R) (x : R) :
  matchStr lit s k = Some x -> exists t, s = lit +++ t /\ k t = Some x.
Proof.
  revert s. induction lit as [|c lit IH]; intros s H; simpl in H.
  - exists s. auto.
  - destruct s as [|d s]; [discriminate|].
    destruct (Ascii.eqb c d) eqn:E; [|discriminate].
    apply Ascii.eqb_eq in E as ->.
    destruct (IH s H) as (t & -> & Hk). exists t. auto.
Qed.

Lemma matchStar_sound {R : Type} (a : atom) (s : string) (k : string -> option R) (x : R) :
  matchStar a s k = Some x ->
  exists w t, s = w +++ t /\ allChars (atomMatches a) w = true /\ k t = Some x.
Proof.
  induction s as [|c s IH]; intros H; simpl in H.
  - exists "", "". auto.
  - destruct (atomMatches a c) eqn:E.
    + destruct (matchStar a s k) as [y|] eqn:Es.
      * injection H as ->. destruct (IH eq_refl) as (w & t & -> & Hw & Hk).
        exists (String c w), t. simpl. rewrite E, Hw. auto.
      * exists "", (String c s). auto.
    + exists "", (String c s). auto.
Qed.

Lemma matchStar_fallback {R : Type} (a : atom) (s : string) (k : string -> option R) :
  k s <> None -> matchStar a s k <> None.
Proof.
  intros Hk. destruct s as [|c s]; simpl; [exact Hk|].
  destruct (atomMatches a c); [|exact Hk].
  destruct (matchStar a s k); [discriminate | exact Hk].
Qed.

Lemma matchStar_complete {R : Type} (a : atom) (w t : string) (k : string -> option R) :
  allChars (atomMatches a) w = true -> k t <> None -> matchStar a (w +++ t) k <> None.
Proof.
  induction w as [|c w IH]; intros Hw Hk; simpl.
  - apply matchStar_fallback. exact Hk.
  - simpl in Hw. apply andb_true_iff in Hw as [Hc Hw]. rewrite Hc.
    specialize (IH Hw Hk). destruct (matchStar a (w +++ t) k); [discriminate | contradiction].
Qed.

Lemma matchRe_sound (r : regex) :
  forall (R : Type) (s : string) (cs : caps) (k : string -> caps -> option R) (x : R),
  matchRe r s cs k = Some x ->
  exists w t cs', s = w +++ t /\ Accepts r w cs cs' /\ k t cs' = Some x.
Proof.
  induction r as [a | lit | a | a | a | r1 IH1 r2 IH2 | r1 IH1 r2 IH2 | i r IH];
    intros R s cs k x H; simpl in H.
  - destruct s as [|c s]; [discriminate|].
    destruct (atomMatches a c) eqn:E; [|discriminate].
    exists (String c ""), s, cs. repeat split; [constructor; exact E | exact H].
  - destruct (matchStr_sound _ _ _ _ H) as (t & -> & Hk).
    exists lit, t, cs. repeat split; [constructor | exact Hk].
  - destruct (matchStar_sound _ _ _ _ H) as (w & t & -> & Hw & Hk).
    exists w, t, cs. repeat split; [constructor; exact Hw | exact Hk].
  - destruct s as [|c s]; [discriminate|].
    destruct (atomMatches a c) eqn:E; [|discriminate].
    destruct (matchStar_sound _ _ _ _ H) as (w & t & -> & Hw & Hk).
    exists (String c w), t, cs. repeat split; [|exact Hk].
    constructor; [discriminate | simpl; rewrite E, Hw; reflexivity].
  - destruct s as [|c s]; [exists "", "", cs; repeat split; [constructor | exact H]|].
    destruct (atomMatches a c) eqn:E.
    + destruct (k s cs) as [y|] eqn:Ek.
      * injection H as ->. exists (String c ""), s, cs.
        repeat split; [constructor; exact E | exact Ek].
      * exists "", (String c s), cs. repeat split; [constructor | exact H].
    + exists "", (String c s), cs. repeat split; [constructor | exact H].
  - destruct (IH1 _ _ _ _ _ H) as (w1 & t1 & cs1 & -> & Ha1 & H2).
    destruct (IH2 _ _ _ _ _ H2) as (w2 & t2 & cs2 & -> & Ha2 & Hk).
    exists (w1 +++ w2), t2, cs2. rewrite append_assoc.
    repeat split; [econstructor; eauto | exact Hk].
  - destruct (matchRe r1 s cs k) as [y|] eqn:E1.
    + injection H as ->. destruct (IH1 _ _ _ _ _ E1) as (w & t & cs' & -> & Ha & Hk).
      exists w, t, cs'. repeat split; [apply AccAltL; exact Ha | exact Hk].
    + destruct (IH2 _ _ _ _ _ H) as (w & t & cs' & -> & Ha & Hk).
      exists w, t, cs'. repeat split; [apply AccAltR; exact Ha | exact Hk].
  - destruct (IH _ _ _ _ _ H) as (w & t & cs' & -> & Ha & Hk).
    rewrite consumed_append in Hk.
    exists w, t, ((i, w) :: cs'). repeat split; [constructor; exact Ha | exact Hk].
Qed.

Lemma matchRe_complete (r : regex) (w : string) (cs cs' : caps) :
  Accepts r w cs cs' ->
  forall (R : Type) (t : string) (k : string -> caps -> option R) (cs0 : caps),
  (forall cs2, k t cs2 <> None) ->
  matchRe r (w +++ t) cs0 k <> None.
Proof.
  induction 1 as [a c cs Hc | lit cs | a w cs Hw | a w cs Hne Hw | a cs | a c cs Hc
                  | r1 r2 w w1 w2 cs cs1 cs2 H1 IH1 H2 IH2 Hw
                  | r1 r2 w cs cs' H1 IH1 | r1 r2 w cs cs' H2 IH2 | i r w cs cs' H1 IH1];
    intros R t k cs0 Hk; simpl.
  - rewrite Hc. apply Hk.
  - rewrite matchStr_append. apply Hk.
  - apply matchStar_complete; [exact Hw | apply Hk].
  - destruct w as [|c w]; [congruence|]. simpl in *.
    apply andb_true_iff in Hw as [Hc Hw]. rewrite Hc.
    apply matchStar_complete; [exact Hw | apply Hk].
  - destruct t as [|c t]; [apply Hk|].
    destruct (atomMatches a c); [|apply Hk].
    destruct (k t cs0); [discriminate | apply Hk].
  - rewrite Hc. destruct (k t cs0) eqn:E; [discriminate|]. exfalso. exact (Hk cs0 E).
  - subst w. rewrite append_assoc. apply IH1. intros cs3. apply IH2. exact Hk.
  - specialize (IH1 R t k cs0 Hk).
    destruct (matchRe r1 (w +++ t) cs0 k); [discriminate | contradiction].
  - destruct (matchRe r1 (w +++ t) cs0 k); [discriminate|]. apply IH2. exact Hk.
  - apply IH1. intros cs3. apply Hk.
Qed.

Lemma matchHere_sound (r : regex) (s : string) (ms : list string) :
  matchHere r s = Some ms ->
  exists w t cs', s = w +++ t /\ Accepts r w [] cs' /\
    ms = w :: map (fun i => getCap i cs') (seq 1 (numGroups r)).
Proof.
  unfold matchHere. intros H.
  destruct (matchRe_sound r _ _ _ _ _ H) as (w & t & cs' & -> & Ha & Hk).
  rewrite consumed_append in Hk. injection Hk as <-.
  exists w, t, cs'. repeat split. exact Ha.
Qed.

Lemma FindStringSubmatch_sound (r : regex) (s : string) :
  FindStringSubmatch r s <> [] ->
  exists pre w post cs', s = pre +++ w +++ post /\ Accepts r w [] cs' /\
    FindStringSubmatch r s = w :: map (fun i => getCap i cs') (seq 1 (numGroups r)).
Proof.
  induction s as [|c s IH]; intros H.
  - simpl in *. destruct (matchHere r "") as [ms|] eqn:E; [|contradiction].
    destruct (matchHere_sound r _ _ E) as (w & t & cs' & Hs & Ha & ->).
    exists "", w, t, cs'. auto.
  - simpl in *. destruct (matchHere r (String c s)) as [ms|] eqn:E.
    + destruct (matchHere_sound r _ _ E) as (w & t & cs' & Hs & Ha & ->).
      exists "", w, t, cs'. auto.
    + destruct (IH H) as (pre & w & post & cs' & -> & Ha & Hf).
      exists (String c pre), w, post, cs'. auto.
Qed.

Lemma FindStringSubmatch_complete (r : regex) (pre w post : string) (cs cs' : caps) :
  Accepts r w cs cs' -> FindStringSubmatch r (pre +++ w +++ post) <> [].
Proof.
  intros Ha.
  assert (Hhere : forall s, matchHere r s <> None -> FindStringSubmatch r s <> []).
  { intros s Hs. destruct s; simpl; destruct (matchHere r _) as [ms|] eqn:E;
      try contradiction;
      destruct (matchHere_sound r _ _ E) as (? & ? & ? & _ & _ & ->); discriminate. }
  induction pre as [|c pre IH].
  - apply Hhere. unfold matchHere. simpl.
    apply (matchRe_complete r w cs cs' Ha). discriminate.
  - simpl. destruct (matchHere r (String c (pre +++ w +++ post))) as [ms|] eqn:E.
    + destruct (matchHere_sound r _ _ E) as (? & ? & ? & _ & _ & ->). discriminate.
    + exact IH.
Qed.

(** Inversion of [Accepts] on a pattern given by its constructors. *)
Ltac inv_accepts :=
  repeat match goal with
    | H : Accepts (RSeq _ _) _ _ _ |- _ => inversion H; subst; clear H
    | H : Accepts (RStr _) _ _ _ |- _ => inversion H; subst; clear H
    | H : Accepts (RPlus _) _ _ _ |- _ => inversion H; subst; clear H
    | H : Accepts (RStar _) _ _ _ |- _ => inversion H; subst; clear H
    | H : Accepts (RGroup _ _) _ _ _ |- _ => inversion H; subst; clear H
    | H : Accepts (RAtom _) _ _ _ |- _ => inversion H; subst; clear H
    end.

Lemma FindStringSubmatch_length (r : regex) (s : string) :
  FindStringSubmatch r s <> [] ->
  length (FindStringSubmatch r s) = S (numGroups r).
Proof.
  intros H. destruct (FindStringSubmatch_sound r s H) as (_ & w & _ & cs' & _ & _ & ->).
  simpl. rewrite length_map, length_seq. reflexivity.
Qed.

Lemma found_test (r : regex) (s : string) :
  (1 <= numGroups r)%nat ->
  (1 <? length (FindStringSubmatch r s))%nat = true <-> FindStringSubmatch r s <> [].
Proof.
  intros Hg. split.
  - intros H E. rewrite E in H. discriminate.
  - intros H. rewrite (FindStringSubmatch_length r s H). apply Nat.ltb_lt. lia.
Qed.

Lemma opt_dot_accepts (w : string) (cs cs' : caps) :
  Accepts (ROpt (AChar ".")) w cs cs' -> (w = "" \/ w = ".") /\ cs' = cs.
Proof.
  intros H. inversion H as [| | | | | a c cs0 Hc | | | |]; subst; [auto|].
  cbn [atomMatches] in Hc. apply Ascii.eqb_eq in Hc. subst c. auto.
Qed.

Lemma downloadRe_accepts (w : string) (cs' : caps) :
  Accepts downloadRe w [] cs' <->
  exists ws d, w = "[download]" +++ ws +++ d +++ "%" /\
    ws <> "" /\ allChars isSpace ws = true /\ isNumberText d /\ cs' = [(1%nat, d)].
Proof.
  unfold downloadRe, cat. simpl foldr. split.
  - intros H. inv_accepts.
    match goal with H : Accepts (ROpt _) _ _ _ |- _ =>
      apply opt_dot_accepts in H; destruct H as [Hdot ->]
    end.
    rewrite !append_nil_r.
    eexists _, _. split; [reflexivity|]. repeat split; try assumption.
    + eexists _, _, _. split; [reflexivity|]. repeat split; assumption.
  - intros (ws & d & -> & Hws & Hsp & (d1 & dot & d2 & -> & Hd1 & Hdig1 & Hdot & Hdig2) & ->).
    eapply AccSeq; [apply AccStr | | reflexivity].
    eapply AccSeq; [apply AccPlus; [exact Hws | exact Hsp] | | reflexivity].
    eapply (AccSeq _ _ _ (d1 +++ dot +++ d2) "%"); [apply AccGroup | | reflexivity].
    + eapply AccSeq; [apply AccPlus; [exact Hd1 | exact Hdig1] | | reflexivity].
      eapply AccSeq; [ | | reflexivity].
      * destruct Hdot as [-> | ->]; [apply AccOptNone | apply AccOptSome; reflexivity].
      * eapply (AccSeq _ _ _ d2 ""); [apply AccStar; exact Hdig2 | apply AccStr |].
        symmetry. apply append_nil_r.
    + eapply (AccSeq _ _ _ "%" ""); [apply AccStr | apply AccStr | reflexivity].
Qed.

Lemma exts_accepts (w : string) (cs cs' : caps) :
  Accepts (RAlt (RStr "webm") (RAlt (RStr "m4a") (RAlt (RStr "mp3")
          (RAlt (RStr "opus") (RStr "wav"))))) w cs cs' <->
  In w audioExts /\ cs' = cs.
Proof.
  split.
  - intros H.
    repeat match goal with
      | H : Accepts (RAlt _ _) _ _ _ |- _ => inversion H; subst; clear H
      | H : Accepts (RStr _) _ _ _ |- _ => inversion H; subst; clear H
      end; simpl; auto 10.
  - intros [Hin ->]. simpl in Hin.
    destruct Hin as [<- | [<- | [<- | [<- | [<- | []]]]]].
    + apply AccAltL, AccStr.
    + apply AccAltR, AccAltL, AccStr.
    + apply AccAltR, AccAltR, AccAltL, AccStr.
    + apply AccAltR, AccAltR, AccAltR, AccAltL, AccStr.
    + apply AccAltR, AccAltR, AccAltR, AccAltR, AccStr.
Qed.

Lemma destRe_accepts (w : string) (cs' : caps) :
  Accepts destRe w [] cs' <->
  exists ws mid name ext,
    w = "Destination:" +++ ws +++ mid +++ "/" +++ name +++ "." +++ ext /\
    ws <> "" /\ allChars isSpace ws = true /\ allChars notNewline mid = true /\
    name <> "" /\ allChars notNewline name = true /\ In ext audioExts /\
    cs' = [(2%nat, ext); (1%nat, name)].
Proof.
  unfold destRe, cat. simpl foldr. split.
  - intros H. inv_accepts.
    match goal with H : atomMatches (AChar ".") ?c = true |- _ =>
      cbn [atomMatches] in H; apply Ascii.eqb_eq in H; subst c
    end.
    match goal with H : Accepts (RAlt _ _) _ _ _ |- _ =>
      apply exts_accepts in H; destruct H as [Hext ->]
    end.
    rewrite !append_nil_r.
    eexists _, _, _, _. split; [reflexivity|]. repeat split; assumption.
  - intros (ws & mid & name & ext & -> & Hws & Hsp & Hmid & Hname & Hnm & Hext & ->).
    eapply AccSeq; [apply AccStr | | reflexivity].
    eapply AccSeq; [apply AccPlus; [exact Hws | exact Hsp] | | reflexivity].
    eapply AccSeq; [apply AccStar; exact Hmid | | reflexivity].
    eapply (AccSeq _ _ _ "/" (name +++ "." +++ ext)); [apply AccStr | | reflexivity].
    eapply AccSeq; [apply AccGroup, AccPlus; [exact Hname | exact Hnm] | | reflexivity].
    eapply (AccSeq _ _ _ "." ext); [apply AccAtom; reflexivity | | reflexivity].
    eapply (AccSeq _ _ _ ext ""); [apply AccGroup | apply AccStr |].
    + apply exts_accepts. auto.
    + symmetry. apply append_nil_r.
Qed.

Lemma extractRe_accepts (w : string) (cs cs' : caps) :
  Accepts extractRe w cs cs' <-> w = "[ExtractAudio]" /\ cs' = cs.
Proof.
  unfold extractRe. split.
  - intros H. inversion H; subst. auto.
  - intros [-> ->]. apply AccStr.
Qed.

(** The three searches of a loop body, in terms of the line. *)

Lemma download_found (line : string) :
  FindStringSubmatch downloadRe line <> [] ->
  exists d, hasPercentage d line /\ nth 1 (FindStringSubmatch downloadRe line) "" = d.
Proof.
  intros H.
  destruct (FindStringSubmatch_sound _ _ H) as (pre & w & post & cs' & -> & Ha & Hf).
  apply downloadRe_accepts in Ha as (ws & d & -> & Hws & Hsp & Hd & ->).
  exists d. split.
  - exists pre, ws, post. rewrite !append_assoc. auto.
  - rewrite Hf. reflexivity.
Qed.

Lemma download_find (d line : string) :
  hasPercentage d line -> FindStringSubmatch downloadRe line <> [].
Proof.
  intros (pre & ws & post & -> & Hws & Hsp & Hd).
  replace (pre +++ "[download]" +++ ws +++ d +++ "%" +++ post)
    with (pre +++ ("[download]" +++ ws +++ d +++ "%") +++ post)
    by (rewrite !append_assoc; reflexivity).
  eapply FindStringSubmatch_complete.
  apply downloadRe_accepts. exists ws, d. auto.
Qed.

Lemma dest_found (line : string) :
  FindStringSubmatch destRe line <> [] ->
  exists name, hasDestination name line /\ nth 1 (FindStringSubmatch destRe line) "" = name.
Proof.
  intros H.
  destruct (FindStringSubmatch_sound _ _ H) as (pre & w & post & cs' & -> & Ha & Hf).
  apply destRe_accepts in Ha
    as (ws & mid & name & ext & -> & Hws & Hsp & Hmid & Hname & Hnm & Hext & ->).
  exists name. split.
  - exists pre, ws, mid, ext, post. rewrite !append_assoc.
    repeat split; assumption.
  - rewrite Hf. reflexivity.
Qed.

Lemma dest_find (name line : string) :
  hasDestination name line -> FindStringSubmatch destRe line <> [].
Proof.
  intros (pre & ws & mid & ext & post & -> & Hws & Hsp & Hmid & Hname & Hnm & Hext).
  replace (pre +++ "Destination:" +++ ws +++ mid +++ "/" +++ name +++ "." +++ ext +++ post)
    with (pre +++ ("Destination:" +++ ws +++ mid +++ "/" +++ name +++ "." +++ ext) +++ post)
    by (rewrite !append_assoc; reflexivity).
  eapply FindStringSubmatch_complete.
  apply destRe_accepts. exists ws, mid, name, ext. repeat split; assumption.
Qed.

Lemma extract_found (line : string) :
  MatchString extractRe line = true <-> hasExtractMarker line.
Proof.
  unfold MatchString. split.
  - intros H.
    assert (Hne : FindStringSubmatch extractRe line <> [])
      by (intros E; rewrite E in H; discriminate).
    destruct (FindStringSubmatch_sound _ _ Hne) as (pre & w & post & cs' & -> & Ha & _).
    apply extractRe_accepts in Ha as [-> _]. exists pre, post. reflexivity.
  - intros (pre & post & ->).
    assert (Hne : FindStringSubmatch extractRe (pre +++ "[ExtractAudio]" +++ post) <> []).
    { eapply (FindStringSubmatch_complete _ _ _ _ [] []). apply extractRe_accepts. auto. }
    destruct (FindStringSubmatch extractRe _); [contradiction | reflexivity].
Qed.

Lemma stdoutBody_In (a : Action) (line : string) :
  In a (stdoutBody line) <->
  (FindStringSubmatch destRe line <> [] /\
   (a = SetTitle (ReplaceAll_underscore (nth 1 (FindStringSubmatch destRe line) "")) \/
    a = Emit StatusDownloading 0%float)) \/
  (FindStringSubmatch downloadRe line <> [] /\
   a = Emit StatusDownloading (Sscanf_f (nth 1 (FindStringSubmatch downloadRe line) ""))) \/
  (MatchString extractRe line = true /\ a = Emit StatusConverting 100%float).
Proof.
  unfold stdoutBody. rewrite !in_app_iff.
  pose proof (found_test destRe line ltac:(cbn; lia)) as Hd.
  pose proof (found_test downloadRe line ltac:(cbn; lia)) as Hp.
  destruct (1 <? length (FindStringSubmatch destRe line))%nat;
    destruct (1 <? length (FindStringSubmatch downloadRe line))%nat;
    destruct (MatchString extractRe line); cbn [In];
    intuition (try discriminate; try congruence; auto).
Qed.

Lemma stderrBody_In (a : Action) (line : string) :
  In a (stderrBody line) <->
  (FindStringSubmatch destRe line <> [] /\
   a = SetTitle (ReplaceAll_underscore (nth 1 (FindStringSubmatch destRe line) ""))) \/
  (FindStringSubmatch downloadRe line <> [] /\
   a = Emit StatusDownloading (Sscanf_f (nth 1 (FindStringSubmatch downloadRe line) ""))).
Proof.
  unfold stderrBody. rewrite !in_app_iff.
  pose proof (found_test destRe line ltac:(cbn; lia)) as Hd.
  pose proof (found_test downloadRe line ltac:(cbn; lia)) as Hp.
  destruct (1 <? length (FindStringSubmatch destRe line))%nat;
    destruct (1 <? length (FindStringSubmatch downloadRe line))%nat; cbn [In];
    intuition (try discriminate; try congruence; auto).
Qed.

(** ** What a line makes the drain loops do *)

(** X13. A line makes a drain loop send a percentage exactly when it
    holds the marker "[download]", white space, a decimal number and a
    percent sign: then both loops send Downloading with the value of such
    a number of the line (the leftmost match), and every message the
    stderr loop sends, and every Downloading message of the stdout loop
    with a percent other than the 0 of a title message, comes from such a
    number. *)
Theorem percentage_lines_and_progress (line : string) :
  (forall d, hasPercentage d line ->
     exists d', hasPercentage d' line /\
       In (Emit StatusDownloading (Sscanf_f d')) (stdoutBody line) /\
       In (Emit StatusDownloading (Sscanf_f d')) (stderrBody line)) /\
  (forall st q, In (Emit st q) (stderrBody line) ->
     st = StatusDownloading /\ exists d, hasPercentage d line /\ q = Sscanf_f d) /\
  (forall q, In (Emit StatusDownloading q) (stdoutBody line) ->
     (exists d, hasPercentage d line /\ q = Sscanf_f d) \/
     (q = 0%float /\ exists name, hasDestination name line)).
Proof.
  split; [|split].
  - intros d Hd. pose proof (download_find d line Hd) as Hne.
    destruct (download_found line Hne) as (d' & Hd' & Hn).
    exists d'. split; [exact Hd'|]. rewrite <- Hn. split.
    + apply stdoutBody_In. right. left. auto.
    + apply stderrBody_In. right. auto.
  - intros st q Hin. apply stderrBody_In in Hin as [[_ H] | [Hne H]]; [discriminate|].
    destruct (download_found line Hne) as (d & Hd & Hn).
    pose proof (f_equal emitStatus H) as Hs. pose proof (f_equal emitProgress H) as Hq.
    simpl in Hs, Hq. rewrite Hn in Hq.
    split; [congruence|]. exists d. split; [exact Hd | congruence].
  - intros q Hin. apply stdoutBody_In in Hin as [[Hne [H | H]] | [[Hne H] | [_ H]]].
    + discriminate.
    + right. pose proof (f_equal emitProgress H) as Hq. simpl in Hq.
      destruct (dest_found line Hne) as (name & Hname & _).
      split; [congruence | eauto].
    + left. destruct (download_found line Hne) as (d & Hd & Hn).
      pose proof (f_equal emitProgress H) as Hq. simpl in Hq. rewrite Hn in Hq.
      exists d. split; [exact Hd | congruence].
    + pose proof (f_equal emitStatus H) as Hs. simpl in Hs. congruence.
Qed.

Lemma percentage_lines_and_progress_witness :
  hasPercentage "42.5" "[download]  42.5% of ..." /\
  exists d', hasPercentage d' "[download]  42.5% of ..." /\
    In (Emit StatusDownloading (Sscanf_f d')) (stdoutBody "[download]  42.5% of ...") /\
    In (Emit StatusDownloading (Sscanf_f d')) (stderrBody "[download]  42.5% of ...").
Proof.
  assert (H : hasPercentage "42.5" "[download]  42.5% of ...").
  { exists "", "  ", " of ...". split; [reflexivity|]. split; [discriminate|].
    split; [reflexivity|]. exists "42", ".", "5".
    split; [reflexivity|]. split; [discriminate|]. auto. }
  split; [exact H|].
  exact (proj1 (percentage_lines_and_progress "[download]  42.5% of ...") "42.5" H).
Defined.

(** X14. A line makes a drain loop take a title exactly when it holds
    "Destination:", white space, any text, a slash, a non-empty name, a
    dot and one of the extensions webm, m4a, mp3, opus, wav, where the
    text and the name are any bytes but a line break: the name may itself
    hold slashes and dots.  Then both loops set the title to one such
    name of the line with its underscores turned into spaces, the same in
    both loops, and a loop sets no other title. *)
Theorem destination_lines_and_titles (line : string) :
  (forall name, hasDestination name line ->
     exists name', hasDestination name' line /\
       In (SetTitle (ReplaceAll_underscore name')) (stdoutBody line) /\
       In (SetTitle (ReplaceAll_underscore name')) (stderrBody line)) /\
  (forall t, In (SetTitle t) (stdoutBody line) \/ In (SetTitle t) (stderrBody line) ->
     exists name, hasDestination name line /\ t = ReplaceAll_underscore name).
Proof.
  split.
  - intros name Hd. pose proof (dest_find name line Hd) as Hne.
    destruct (dest_found line Hne) as (name' & Hd' & Hn).
    exists name'. split; [exact Hd'|]. rewrite <- Hn. split.
    + apply stdoutBody_In. left. auto.
    + apply stderrBody_In. left. auto.
  - intros t [Hin | Hin].
    + apply stdoutBody_In in Hin as [[Hne [H | H]] | [[_ H] | [_ H]]]; try discriminate.
      destruct (dest_found line Hne) as (name & Hname & Hn).
      exists name. split; [exact Hname|]. rewrite Hn in H. congruence.
    + apply stderrBody_In in Hin as [[Hne H] | [_ H]]; try discriminate.
      destruct (dest_found line Hne) as (name & Hname & Hn).
      exists name. split; [exact Hname|]. rewrite Hn in H. congruence.
Qed.

Lemma destination_lines_and_titles_witness :
  hasDestination "My_Song" "[download] Destination: /out/My_Song.webm" /\
  exists name', hasDestination name' "[download] Destination: /out/My_Song.webm" /\
    In (SetTitle (ReplaceAll_underscore name'))
       (stdoutBody "[download] Destination: /out/My_Song.webm") /\
    In (SetTitle (ReplaceAll_underscore name'))
       (stderrBody "[download] Destination: /out/My_Song.webm").
Proof.
  assert (H : hasDestination "My_Song" "[download] Destination: /out/My_Song.webm").
  { exists "[download] ", " ", "/out", "webm", "". split; [reflexivity|].
    split; [discriminate|]. split; [reflexivity|]. split; [reflexivity|].
    split; [discriminate|]. split; [reflexivity|]. simpl. auto. }
  split; [exact H|].
  exact (proj1 (destination_lines_and_titles "[download] Destination: /out/My_Song.webm")
               "My_Song" H).
Defined.

(** The name is what group 1 of the pattern takes, not a file name: it
    can end in a slash or hold a dot. *)
Example destination_name_with_slash_or_dot :
  stderrBody "[download] Destination: /out/.mp3" = [SetTitle "out/"] /\
  stderrBody "[download] Destination: /out/My_Song.webmx.mp3" = [SetTitle "My Song.webmx"] /\
  hasDestination "out/" "[download] Destination: /out/.mp3".
Proof.
  split; [reflexivity|]. split; [reflexivity|].
  exists "[download] ", " ", "", "mp3", "". split; [reflexivity|].
  split; [discriminate|]. split; [reflexivity|]. split; [reflexivity|].
  split; [discriminate|]. split; [reflexivity|]. simpl. auto.
Qed.

(** X15. The stdout loop sends Converting exactly for the lines that hold
    the marker "[ExtractAudio]", always at 100 percent; the stderr loop
    never sends Converting. *)
Theorem extract_marker_and_converting (line : string) :
  (In (Emit StatusConverting 100%float) (stdoutBody line) <-> hasExtractMarker line) /\
  (forall q, In (Emit StatusConverting q) (stdoutBody line) -> q = 100%float) /\
  (forall q, ~ In (Emit StatusConverting q) (stderrBody line)).
Proof.
  split; [|split].
  - rewrite <- extract_found. split.
    + intros Hin. apply stdoutBody_In in Hin as [[_ [H | H]] | [[_ H] | [Hm _]]].
      * discriminate.
      * pose proof (f_equal emitStatus H) as Hs. simpl in Hs. congruence.
      * pose proof (f_equal emitStatus H) as Hs. simpl in Hs. congruence.
      * exact Hm.
    + intros Hm. apply stdoutBody_In. right. right. auto.
  - intros q Hin. apply stdoutBody_In in Hin as [[_ [H | H]] | [[_ H] | [_ H]]].
    + discriminate.
    + pose proof (f_equal emitStatus H) as Hs. simpl in Hs. congruence.
    + pose proof (f_equal emitStatus H) as Hs. simpl in Hs. congruence.
    + pose proof (f_equal emitProgress H) as Hq. simpl in Hq. congruence.
  - intros q Hin. apply stderrBody_In in Hin as [[_ H] | [_ H]]; [discriminate|].
    pose proof (f_equal emitStatus H) as Hs. simpl in Hs. congruence.
Qed.

(** ** What is drawn *)

Lemma length_takeStr (n : nat) (s : string) :
  String.length (takeStr n s) = Nat.min n (String.length s).
Proof.
  revert s. induction n as [|n IH]; intros s; [reflexivity|].
  destruct s as [|c s]; [reflexivity|]. simpl. rewrite IH. reflexivity.
Qed.

Lemma truncate_fits (s : string) (max : Z) :
  3 <= max ->
  exists r, truncate s max = Some r /\ Z.of_nat (String.length r) <= max.
Proof.
  intros Hmax. unfold truncate.
  destruct (Z.of_nat (String.length s) <=? max) eqn:E.
  - apply Z.leb_le in E. exists s. split; [reflexivity | exact E].
  - apply Z.leb_gt in E.
    replace (max - 3 <? 0) with false by (symmetry; apply Z.ltb_ge; lia).
    eexists. split; [reflexivity|].
    rewrite length_append, length_takeStr. simpl String.length. lia.
Qed.

(** X16. For a limit of at least 3, [truncate] never panics and returns a
    text of at most [max] bytes: the text itself when it fits, otherwise
    its first [max-3] bytes followed by three dots, exactly [max] bytes
    long.  Truncating the result again changes nothing. *)
Theorem truncate_bounded (s : string) (max : Z) :
  3 <= max ->
  exists r,
    truncate s max = Some r /\
    Z.of_nat (String.length r) <= max /\
    (Z.of_nat (String.length s) <= max -> r = s) /\
    (max < Z.of_nat (String.length s) ->
     r = takeStr (Z.to_nat (max - 3)) s +++ "..." /\ Z.of_nat (String.length r) = max) /\
    truncate r max = Some r.
Proof.
  intros Hmax. unfold truncate.
  destruct (Z.of_nat (String.length s) <=? max) eqn:E.
  - apply Z.leb_le in E. exists s. rewrite (proj2 (Z.leb_le _ _) E).
    repeat split; auto; lia.
  - apply Z.leb_gt in E.
    replace (max - 3 <? 0) with false by (symmetry; apply Z.ltb_ge; lia).
    set (r := takeStr (Z.to_nat (max - 3)) s +++ "...").
    assert (Hr : Z.of_nat (String.length r) = max).
    { unfold r. rewrite length_append, length_takeStr. simpl String.length. lia. }
    exists r. rewrite Hr, Z.leb_refl. repeat split; auto; lia.
Qed.

Lemma truncate_bounded_witness :
  3 <= 45 /\
  exists r, truncate "https://www.youtube.com/watch?v=dQw4w9WgXcQ&list=PL0123456789" 45 = Some r /\
            Z.of_nat (String.length r) <= 45.
Proof.
  assert (H : 3 <= 45) by (vm_compute; discriminate).
  split; [exact H|].
  destruct (truncate_bounded "https://www.youtube.com/watch?v=dQw4w9WgXcQ&list=PL0123456789" 45 H)
    as (r & Hr & Hlen & _).
  exists r. split; [exact Hr | exact Hlen].
Defined.

(** X17. [renderItem] draws, for every item, a name of at most 45 bytes,
    and its slice expression never panics; the name is cut from the title
    when there is one and from the URL otherwise. *)
Theorem displayTitle_bounded (item : Item) :
  exists r, displayTitle item = Some r /\ Z.of_nat (String.length r) <= 45 /\
    (Title item = "" -> truncate (URL item) 45 = Some r) /\
    (Title item <> "" -> truncate (Title item) 45 = Some r).
Proof.
  unfold displayTitle. destruct (String.eqb (Title item) "") eqn:E.
  - apply String.eqb_eq in E.
    destruct (truncate_fits (URL item) 45 ltac:(lia)) as (r & Hr & Hlen).
    exists r. repeat split; auto. intros Hne. contradiction.
  - apply String.eqb_neq in E.
    destruct (truncate_fits (Title item) 45 ltac:(lia)) as (r & Hr & Hlen).
    exists r. repeat split; auto. intros He. contradiction.
Qed.

Lemma firstUnfinished_spec (its : list Item) (i0 i : Z) :
  firstUnfinished its i0 = Some i ->
  exists k it, i = i0 + Z.of_nat k /\ its !! k = Some it /\
    isTerminal (ItemStatus it) = false /\
    forall j it', (j < k)%nat -> its !! j = Some it' -> isTerminal (ItemStatus it') = true.
Proof.
  revert i0. induction its as [|x tl IH]; intros i0 H; simpl in H; [discriminate|].
  destruct (negb (Status_eqb (ItemStatus x) StatusCompleted)
            && negb (Status_eqb (ItemStatus x) StatusFailed)) eqn:E.
  - injection H as <-. exists 0%nat, x. split; [lia|]. split; [reflexivity|].
    split; [destruct (ItemStatus x); simpl in *; congruence|]. intros j it' Hj. lia.
  - destruct (IH (i0 + 1) H) as (k & it & -> & Hk & Ht & Hmin).
    exists (S k), it. split; [lia|]. split; [exact Hk|]. split; [exact Ht|].
    intros j it' Hj Hl. destruct j as [|j].
    + simpl in Hl. injection Hl as <-. destruct (ItemStatus x); simpl in *; congruence.
    + apply (Hmin j it'); [lia | exact Hl].
Qed.

(** X18. The window of items [View] draws lies within the item list and
    holds min(10, n) items, so that with more than 10 items the
    "... and more" line counts exactly the items outside it.  With more
    than 10 items, the first item that is neither Completed nor Failed is
    inside the window, at most two places after its start unless the
    window is the last ten items. *)
Theorem viewWindow_shows_first_unfinished (m : Model) :
  let n := Z.of_nat (length (items m)) in
  0 <= fst (viewWindow m) <= snd (viewWindow m) /\
  snd (viewWindow m) <= n /\
  snd (viewWindow m) - fst (viewWindow m) = Z.min maxItems n /\
  (maxItems < n ->
   forall i, firstUnfinished (items m) 0 = Some i ->
     fst (viewWindow m) <= i < snd (viewWindow m) /\
     (i - fst (viewWindow m) <= 2 \/ fst (viewWindow m) = n - maxItems)).
Proof.
  intros n. unfold viewWindow. fold n. unfold maxItems. cbn [fst snd].
  destruct (n >? 10) eqn:E.
  - rewrite Z.gtb_ltb in E. apply Z.ltb_lt in E.
    destruct (firstUnfinished (items m) 0) as [i|] eqn:Ef.
    + destruct (firstUnfinished_spec _ _ _ Ef) as (k & it & -> & Hk & _).
      apply lookup_lt_Some in Hk.
      destruct (Z.max 0 (0 + Z.of_nat k - 2) + 10 >? n) eqn:E2;
        rewrite Z.gtb_ltb in E2; [apply Z.ltb_lt in E2 | apply Z.ltb_ge in E2];
        (repeat split; try lia);
        match goal with H : Some _ = Some _ |- _ => injection H as <- end; lia.
    + destruct (0 + 10 >? n) eqn:E2; rewrite Z.gtb_ltb in E2;
        [apply Z.ltb_lt in E2 | apply Z.ltb_ge in E2]; repeat split; try lia;
        discriminate.
  - rewrite Z.gtb_ltb in E. apply Z.ltb_ge in E. repeat split; try lia.
Qed.

(** ** [Update]: keys, resizes and ticks between the progress messages *)

Lemma handleProgress_withUi (m : Model) (pm : ProgressMsg) (w : Z) (q : bool) :
  update (withUi m w q) pm = withUi (update m pm) w q /\
  launches (withUi m w q) pm = launches m pm.
Proof.
  unfold update, launches, handleProgress, withUi.
  cbn [items config parallel activeCount completed failed width quitting done].
  destruct ((ID pm <? 0) || (ID pm >=? Z.of_nat (length (items m)))); [split; reflexivity|].
  destruct (isTerminal (MsgStatus pm)); [|split; reflexivity].
  destruct (admitLoop _ _ _ _ _). destruct (_ =? _); split; reflexivity.
Qed.

Lemma withUi_withUi (m : Model) (w w' : Z) (q q' : bool) :
  withUi (withUi m w q) w' q' = withUi m w' q'.
Proof. reflexivity. Qed.

Lemma withUi_self (m : Model) : withUi m (width m) (quitting m) = m.
Proof. destruct m. reflexivity. Qed.

Lemma feed_withUi (msgs : list ProgressMsg) (m : Model) (w : Z) (q : bool) :
  feed (withUi m w q) msgs = withUi (feed m msgs) w q.
Proof.
  revert m. induction msgs as [|pm tl IH]; intros m; [reflexivity|].
  simpl feed.
  change (fold_left update tl (update (withUi m w q) pm))
    with (feed (update (withUi m w q) pm) tl).
  change (fold_left update tl (update m pm)) with (feed (update m pm) tl).
  rewrite (proj1 (handleProgress_withUi m pm w q)). apply IH.
Qed.

Lemma Update_step (m : Model) (msg : Msg) :
  exists w q,
    fst (fst (Update m msg)) =
      withUi (feed m (progressOf [msg])) w q /\
    q = quitting m || isQuitKey msg.
Proof.
  destruct msg as [key | w h | cur | pm |]; simpl.
  - destruct (String.eqb key "ctrl+c" || String.eqb key "q").
    + exists (width m), true. rewrite orb_true_r. split; reflexivity.
    + exists (width m), (quitting m). rewrite withUi_self, orb_false_r. split; reflexivity.
  - exists w, (quitting m). rewrite orb_false_r. split; reflexivity.
  - exists (width m), (quitting m). rewrite withUi_self, orb_false_r. split; reflexivity.
  - exists (width (update m pm)), (quitting m). rewrite orb_false_r.
    unfold update. destruct (handleProgress m pm) as [[m' ls] c] eqn:E. cbn [fst].
    assert (Hq : quitting m' = quitting m).
    { pose proof (update_fixed m pm) as (_ & _ & _ & Hq). unfold update in Hq.
      rewrite E in Hq. exact Hq. }
    rewrite <- Hq. destruct m'. split; reflexivity.
  - exists (width m), (quitting m). rewrite withUi_self, orb_false_r. split; reflexivity.
Qed.

Lemma runUpdates_feed (msgs : list Msg) (m : Model) :
  exists w,
    runUpdates m msgs =
      withUi (feed m (progressOf msgs)) w (quitting m || existsb isQuitKey msgs).
Proof.
  revert m. induction msgs as [|msg tl IH]; intros m.
  - exists (width m). simpl. rewrite orb_false_r, withUi_self. reflexivity.
  - unfold runUpdates. simpl fold_left.
    change (fold_left (fun m0 msg0 => fst (fst (Update m0 msg0))) tl (fst (fst (Update m msg))))
      with (runUpdates (fst (fst (Update m msg))) tl).
    destruct (Update_step m msg) as (w1 & q1 & -> & ->).
    destruct (IH (withUi (feed m (progressOf [msg])) w1 (quitting m || isQuitKey msg)))
      as (w & ->).
    exists w. rewrite feed_withUi, withUi_withUi. cbn [withUi quitting].
    rewrite <- orb_assoc. f_equal.
    destruct msg; simpl; reflexivity.
Qed.

(** X19. Key presses, window resizes, spinner ticks and unknown messages
    are transparent to the aggregation: after any sequence of runtime
    messages, the items, the three counters, the [done] flag, the
    configuration and the limit are what the progress messages among
    them, applied alone in the same order, give. *)
Theorem ui_messages_transparent (msgs : list Msg) (m : Model) :
  aggregate (runUpdates m msgs) = aggregate (feed m (progressOf msgs)) /\
  config (runUpdates m msgs) = config (feed m (progressOf msgs)) /\
  parallel (runUpdates m msgs) = parallel (feed m (progressOf msgs)).
Proof.
  destruct (runUpdates_feed msgs m) as (w & ->). repeat split.
Qed.

(** X20. [quitting] is set by the keys "q" and "ctrl+c" and by nothing
    else, and is never reset: after any sequence of runtime messages it
    is set exactly when it was set before or one of the messages is such
    a key press.  No progress message cancels a run and no key other than
    these two does. *)
Theorem quitting_only_by_quit_keys (msgs : list Msg) (m : Model) :
  quitting (runUpdates m msgs) = quitting m || existsb isQuitKey msgs.
Proof.
  destruct (runUpdates_feed msgs m) as (w & ->). reflexivity.
Qed.

(** ** The list of URLs *)

Section Trim.

Variable T : list (list ascii).

Lemma spaceLen_nil : spaceLen T [] = 0%nat.
Proof.
  induction T as [|e tl IH]; [reflexivity|]. simpl.
  destruct e; [reflexivity | exact IH].
Qed.

Lemma trimLeftN_clean (n : nat) (l : list ascii) :
  (length l <= n)%nat -> spaceLen T (trimLeftN T n l) = 0%nat.
Proof.
  revert l. induction n as [|n IH]; intros l Hl; simpl.
  - destruct l; [apply spaceLen_nil | simpl in Hl; lia].
  - destruct (spaceLen T l) as [|k] eqn:E; [exact E|].
    apply IH. rewrite length_drop. lia.
Qed.

Lemma trimLeftN_suffix (n : nat) (l : list ascii) :
  exists pre, l = pre ++ trimLeftN T n l.
Proof.
  revert l. induction n as [|n IH]; intros l; simpl; [exists []; reflexivity|].
  destruct (spaceLen T l) as [|k]; [exists []; reflexivity|].
  destruct (IH (drop (S k) l)) as (pre & Hpre).
  exists (take (S k) l ++ pre). rewrite <- app_assoc, <- Hpre, take_drop. reflexivity.
Qed.

Lemma trimLeftN_fixed (n : nat) (l : list ascii) :
  spaceLen T l = 0%nat -> trimLeftN T n l = l.
Proof. intros H. destruct n; simpl; [reflexivity | rewrite H; reflexivity]. Qed.

End Trim.

Lemma startsWith_prefix (e l k : list ascii) :
  startsWith e l = true -> startsWith e (l ++ k) = true.
Proof.
  revert l. induction e as [|c e IH]; intros l H; [reflexivity|].
  destruct l as [|d l]; [discriminate|]. simpl in *.
  apply andb_true_iff in H as [-> H]. simpl. apply IH. exact H.
Qed.

Lemma spaceLen_prefix (T : list (list ascii)) (l k : list ascii) :
  Forall (fun e => e <> []) T ->
  spaceLen T (l ++ k) = 0%nat -> spaceLen T l = 0%nat.
Proof.
  induction 1 as [|e tl He Htl IH]; intros H; [reflexivity|]. simpl in *.
  destruct (startsWith e l) eqn:E.
  - rewrite (startsWith_prefix e l k E) in H. destruct e; [congruence | discriminate].
  - destruct (startsWith e (l ++ k)); [destruct e; [congruence | discriminate]|].
    apply IH. exact H.
Qed.

Lemma whiteSpace_nonempty : Forall (fun e => e <> []) whiteSpace.
Proof. unfold whiteSpace. simpl. repeat constructor; discriminate. Qed.

Lemma trimBytes_clean (l : list ascii) :
  spaceLen whiteSpace (trimBytes l) = 0%nat /\
  spaceLen (map reverse whiteSpace) (reverse (trimBytes l)) = 0%nat.
Proof.
  unfold trimBytes, trimRight.
  set (y := trimLeft whiteSpace l).
  assert (Hy : spaceLen whiteSpace y = 0%nat)
    by (apply trimLeftN_clean; reflexivity).
  split.
  - destruct (trimLeftN_suffix (map reverse whiteSpace) (length (reverse y)) (reverse y))
      as (pre & Hpre).
    fold (trimLeft (map reverse whiteSpace) (reverse y)) in Hpre.
    apply (spaceLen_prefix _ _ (reverse pre) whiteSpace_nonempty).
    rewrite <- reverse_app, <- Hpre, reverse_involutive. exact Hy.
  - rewrite reverse_involutive. apply trimLeftN_clean. reflexivity.
Qed.

Lemma trimBytes_fixed (l : list ascii) :
  spaceLen whiteSpace l = 0%nat ->
  spaceLen (map reverse whiteSpace) (reverse l) = 0%nat ->
  trimBytes l = l.
Proof.
  intros H1 H2. unfold trimBytes, trimRight, trimLeft.
  rewrite (trimLeftN_fixed whiteSpace _ l H1).
  rewrite (trimLeftN_fixed _ _ (reverse l) H2).
  apply reverse_involutive.
Qed.

Lemma TrimSpace_idempotent (s : string) : TrimSpace (TrimSpace s) = TrimSpace s.
Proof.
  unfold TrimSpace. rewrite list_ascii_of_string_of_list_ascii.
  destruct (trimBytes_clean (list_ascii_of_string s)) as [H1 H2].
  rewrite (trimBytes_fixed _ H1 H2). reflexivity.
Qed.

Lemma keepURL_Some (s u : string) :
  keepURL s = Some u ->
  u = TrimSpace s /\ u <> "" /\ HasPrefix_hash u = false.
Proof.
  unfold keepURL. intros H.
  destruct (String.eqb (TrimSpace s) "") eqn:E; [discriminate|].
  destruct (HasPrefix_hash (TrimSpace s)) eqn:Eh; [discriminate|].
  injection H as <-. apply String.eqb_neq in E. auto.
Qed.

Lemma keepURL_kept (s u : string) : keepURL s = Some u -> keepURL u = Some u.
Proof.
  intros H. destruct (keepURL_Some s u H) as (-> & Hne & Hh).
  unfold keepURL. rewrite TrimSpace_idempotent.
  apply String.eqb_neq in Hne. rewrite Hne, Hh. reflexivity.
Qed.

Lemma filterURLs_In (u : string) (l : list string) :
  In u (filterURLs l) -> exists s, In s l /\ keepURL s = Some u.
Proof.
  unfold filterURLs. induction l as [|x tl IH]; simpl; [contradiction|].
  destruct (keepURL x) as [v|] eqn:E.
  - intros [<- | H]; [eauto | destruct (IH H) as (s & Hs & Hk); eauto].
  - intros H. destruct (IH H) as (s & Hs & Hk). eauto.
Qed.

Lemma filterURLs_fixed (l : list string) :
  Forall (fun u => keepURL u = Some u) l -> filterURLs l = l.
Proof.
  unfold filterURLs. induction 1 as [|x tl Hx Htl IH]; [reflexivity|].
  simpl. rewrite Hx. simpl. f_equal. exact IH.
Qed.

Lemma filterURLs_kept (l : list string) :
  Forall (fun u => keepURL u = Some u) (filterURLs l).
Proof.
  unfold filterURLs. induction l as [|x tl IH]; simpl; [constructor|].
  destruct (keepURL x) as [v|] eqn:E; [|exact IH].
  constructor; [exact (keepURL_kept x v E) | exact IH].
Qed.

Lemma filterURLs_app (a b : list string) :
  filterURLs (a ++ b) = filterURLs a ++ filterURLs b.
Proof. unfold filterURLs. apply omap_app. Qed.

(** X21. Every URL [parseFlags] hands on, whether it comes from the file,
    from the [-urls] value or from the arguments, is a trimmed input that
    is not empty, does not start with "#" and has no white space left at
    either end (trimming it again gives the same text). *)
Theorem collected_urls_clean
    (fileLines : option (list string)) (urlList : string) (args : list string) (u : string) :
  In u (collectURLs fileLines urlList args) ->
  u <> "" /\ HasPrefix_hash u = false /\ TrimSpace u = u /\
  exists s, u = TrimSpace s /\
    (In s args \/ In s (Split_comma urlList) \/
     exists lines, fileLines = Some lines /\ In s (map TrimSpace lines)).
Proof.
  unfold collectURLs. intros Hin.
  destruct (filterURLs_In _ _ Hin) as (s & Hs & Hk).
  destruct (keepURL_Some s u Hk) as (Hu & Hne & Hh).
  split; [exact Hne|]. split; [exact Hh|].
  split; [rewrite Hu; apply TrimSpace_idempotent|].
  apply in_app_iff in Hs as [Hs | Hs]; [|apply in_app_iff in Hs as [Hs | Hs]].
  - destruct fileLines as [lines|]; [|contradiction].
    destruct (filterURLs_In _ _ Hs) as (s0 & Hs0 & Hk0).
    destruct (keepURL_Some s0 s Hk0) as (Hs' & _).
    exists s. split; [exact Hu|]. right. right. exists lines. split; [reflexivity|].
    rewrite Hs'. apply in_map. exact Hs0.
  - destruct (String.eqb urlList ""); [contradiction|].
    exists s. auto.
  - exists s. auto.
Qed.

Lemma collected_urls_clean_witness :
  In "https://b.example/v" (collectURLs (Some ["# list"; "  https://a.example/v  "])
                              " https://b.example/v ,,#c" ["https://c.example/v"]) /\
  TrimSpace "https://b.example/v" = "https://b.example/v".
Proof.
  assert (H : In "https://b.example/v"
                (collectURLs (Some ["# list"; "  https://a.example/v  "])
                   " https://b.example/v ,,#c" ["https://c.example/v"]))
    by (vm_compute; auto).
  split; [exact H|].
  exact (proj1 (proj2 (proj2 (collected_urls_clean _ _ _ _ H)))).
Defined.

(** X22. Filtering is idempotent, and the second filtering in
    [parseFlags] leaves the URLs read from the file as [readURLsFromFile]
    returned them, in their order, ahead of those of the [-urls] value
    and of the arguments. *)
Theorem url_filter_idempotent
    (lines : list string) (urlList : string) (args : list string) (l : list string) :
  filterURLs (filterURLs l) = filterURLs l /\
  collectURLs (Some lines) urlList args =
    readURLsFromFile lines
    ++ filterURLs (if String.eqb urlList "" then [] else Split_comma urlList)
    ++ filterURLs args.
Proof.
  split.
  - apply filterURLs_fixed, filterURLs_kept.
  - unfold collectURLs. rewrite !filterURLs_app. f_equal.
    apply filterURLs_fixed. apply (filterURLs_kept lines).
Qed.

Lemma Split_comma_nonempty (s : string) : Split_comma s <> [].
Proof.
  destruct s as [|c t]; simpl; [discriminate|].
  destruct (Ascii.eqb c ","); [discriminate|].
  destruct (Split_comma t); discriminate.
Qed.

Lemma Join_comma_cons (x : string) (l : list string) :
  l <> [] -> Join_comma (x :: l) = x +++ "," +++ Join_comma l.
Proof. destruct l; [congruence | reflexivity]. Qed.

Lemma Join_comma_String (c : ascii) (h : string) (r : list string) :
  Join_comma (String c h :: r) = String c (Join_comma (h :: r)).
Proof. destruct r; reflexivity. Qed.

(** X23. The [-urls] value is cut at every comma and nowhere else: no
    piece holds a comma, and the pieces joined by commas are the value. *)
Theorem split_comma_round_trip (s : string) :
  Join_comma (Split_comma s) = s /\
  Forall (fun piece => allChars (fun c => negb (Ascii.eqb c ",")) piece = true) (Split_comma s).
Proof.
  induction s as [|c t IH]; [split; [reflexivity | repeat constructor]|].
  destruct IH as [IHj IHf]. cbn [Split_comma].
  pose proof (Split_comma_nonempty t) as Hne.
  destruct (Ascii.eqb c ",") eqn:E.
  - apply Ascii.eqb_eq in E. subst c. split.
    + rewrite Join_comma_cons by exact Hne. rewrite IHj. reflexivity.
    + constructor; [reflexivity | exact IHf].
  - destruct (Split_comma t) as [|h r]; [contradiction|].
    split.
    + rewrite Join_comma_String, IHj. reflexivity.
    + apply Forall_cons in IHf as [Hh Hr].
      constructor; [simpl; rewrite E, Hh; reflexivity | exact Hr].
Qed.

(** ** The schedule that drains the streams first *)

Lemma wrun_app (id : Z) (p : Proc) (a b : list Move) (w : Worker) :
  wrun id p (a ++ b) w =
  match wrun id p a w with
  | Some w' => wrun id p b w'
  | None => None
  end.
Proof.
  revert w. induction a as [|mv a IH]; intros w; simpl; [reflexivity|].
  destruct (wstep id p mv w); [apply IH | reflexivity].
Qed.

Section Drain.

Variable id : Z.
Variable p : Proc.

Lemma stdout_actions (acts : list Action) (c : MainPc) (t : string) (u : list string)
    (re : Reader) (ch : list ProgressMsg) :
  spawned c = true ->
  wrun id p (repeat MvStdout (length acts)) (mkWorker c t (mkReader acts u false) re ch) =
  Some (mkWorker c (fst (runActions id t acts)) (mkReader [] u false) re
                 (ch ++ snd (runActions id t acts))).
Proof.
  intros Hc. revert t ch. induction acts as [|[t0 | st q] acts IH]; intros t ch.
  - simpl. rewrite app_nil_r. reflexivity.
  - simpl. rewrite Hc. simpl. apply IH.
  - simpl. rewrite Hc. simpl. rewrite IH.
    destruct (runActions id t acts) as [t' ms]. simpl.
    rewrite <- app_assoc. reflexivity.
Qed.

Lemma stderr_actions (acts : list Action) (c : MainPc) (t : string) (u : list string)
    (ro : Reader) (ch : list ProgressMsg) :
  spawned c = true ->
  wrun id p (repeat MvStderr (length acts)) (mkWorker c t ro (mkReader acts u false) ch) =
  Some (mkWorker c (fst (runActions id t acts)) ro (mkReader [] u false)
                 (ch ++ snd (runActions id t acts))).
Proof.
  intros Hc. revert t ch. induction acts as [|[t0 | st q] acts IH]; intros t ch.
  - simpl. rewrite app_nil_r. reflexivity.
  - simpl. rewrite Hc. simpl. apply IH.
  - simpl. rewrite Hc. simpl. rewrite IH.
    destruct (runActions id t acts) as [t' ms]. simpl.
    rewrite <- app_assoc. reflexivity.
Qed.

Lemma stdout_lines (lines : list string) (c : MainPc) (t : string)
    (re : Reader) (ch : list ProgressMsg) :
  spawned c = true ->
  wrun id p (drainMoves MvStdout stdoutBody lines)
       (mkWorker c t (mkReader [] lines false) re ch) =
  Some (mkWorker c (fst (runLines id stdoutBody t lines)) (mkReader [] [] true) re
                 (ch ++ snd (runLines id stdoutBody t lines))).
Proof.
  intros Hc. revert t ch. induction lines as [|l tl IH]; intros t ch.
  - simpl. rewrite Hc. simpl. rewrite app_nil_r. reflexivity.
  - cbn [drainMoves]. change (wrun id p (?mv :: ?rest) ?w)
      with (match wstep id p mv w with Some w' => wrun id p rest w' | None => None end).
    simpl wstep. rewrite Hc. simpl readerStep. cbv iota.
    rewrite wrun_app, (stdout_actions _ _ _ _ _ _ Hc), IH.
    cbn [runLines].
    destruct (runActions id t (stdoutBody l)) as [t1 ms1].
    cbn [fst snd].
    destruct (runLines id stdoutBody t1 tl) as [t2 ms2].
    cbn [fst snd]. rewrite <- app_assoc. reflexivity.
Qed.

Lemma stderr_lines (lines : list string) (c : MainPc) (t : string)
    (ro : Reader) (ch : list ProgressMsg) :
  spawned c = true ->
  wrun id p (drainMoves MvStderr stderrBody lines)
       (mkWorker c t ro (mkReader [] lines false) ch) =
  Some (mkWorker c (fst (runLines id stderrBody t lines)) ro (mkReader [] [] true)
                 (ch ++ snd (runLines id stderrBody t lines))).
Proof.
  intros Hc. revert t ch. induction lines as [|l tl IH]; intros t ch.
  - simpl. rewrite Hc. simpl. rewrite app_nil_r. reflexivity.
  - cbn [drainMoves]. change (wrun id p (?mv :: ?rest) ?w)
      with (match wstep id p mv w with Some w' => wrun id p rest w' | None => None end).
    simpl wstep. rewrite Hc. simpl readerStep. cbv iota.
    rewrite wrun_app, (stderr_actions _ _ _ _ _ _ Hc), IH.
    cbn [runLines].
    destruct (runActions id t (stderrBody l)) as [t1 ms1].
    cbn [fst snd].
    destruct (runLines id stderrBody t1 tl) as [t2 ms2].
    cbn [fst snd]. rewrite <- app_assoc. reflexivity.
Qed.

End Drain.

Lemma start_and_setup (id : Z) (p : Proc) (rest : list Move) :
  setupErr p = None ->
  wrun id p (MvMain :: MvMain :: rest) (winit p) =
  wrun id p rest (mkWorker PcWait "" (mkReader [] (stdoutLines p) false)
                           (mkReader [] (stderrLines p) false) [startedMsg id]).
Proof.
  intros Hs.
  change (wrun id p (MvMain :: MvMain :: rest) (winit p))
    with (match wstep id p MvMain
                  (mkWorker PcSetup "" (mkReader [] (stdoutLines p) false)
                            (mkReader [] (stderrLines p) false) [startedMsg id]) with
          | Some w' => wrun id p rest w'
          | None => None
          end).
  cbn [wstep]. rewrite mainStep_setup by reflexivity. rewrite Hs. reflexivity.
Qed.

(** X24. When the setup succeeds, the schedule that lets the stdout loop
    and then the stderr loop drain their streams before [cmd.Wait]
    returns is a run of the worker: both loops see the end of their
    stream with no line left, and the channel holds Started, the messages
    of the stdout lines in order, those of the stderr lines in order, and
    last the terminal message, Failed or Completed by the exit status,
    with the last title set. *)
Theorem drain_first_run (id : Z) (p : Proc) :
  setupErr p = None ->
  let out := runLines id stdoutBody "" (stdoutLines p) in
  let err := runLines id stderrBody (fst out) (stderrLines p) in
  let final := match WaitErr p with
               | Some _ => failedMsg id (fst err)
               | None => completedMsg id (fst err)
               end in
  Download id p (drainFirst p) =
    Some (mkWorker PcReturned (fst err) (mkReader [] [] true) (mkReader [] [] true)
                   ([startedMsg id] ++ snd out ++ snd err ++ [final])).
Proof.
  intros Hs out err final. unfold Download, drainFirst.
  change ([MvMain; MvMain] ++ ?rest) with (MvMain :: MvMain :: rest).
  rewrite (start_and_setup id p _ Hs).
  rewrite wrun_app, (stdout_lines id p _ PcWait _ _ _ eq_refl).
  rewrite wrun_app, (stderr_lines id p _ PcWait _ _ _ eq_refl).
  fold out. fold err.
  cbn [wrun wstep mainStep pc title rdOut rdErr sent].
  unfold final. destruct (WaitErr p); rewrite <- !app_assoc; reflexivity.
Qed.

Lemma drain_first_run_witness :
  setupErr lateProgressProc = None /\
  Download 0 lateProgressProc (drainFirst lateProgressProc) =
    Some (mkWorker PcReturned "My Song" (mkReader [] [] true) (mkReader [] [] true)
            [startedMsg 0;
             mkMsg 0 StatusDownloading 0%float "My Song" None;
             mkMsg 0 StatusConverting 100%float "My Song" None;
             mkMsg 0 StatusDownloading 50%float "My Song" None;
             completedMsg 0 "My Song"]).
Proof.
  assert (H : setupErr lateProgressProc = None) by reflexivity.
  split; [exact H|].
  exact (drain_first_run 0 lateProgressProc H).
Defined.

(** ** From the exit status to the item *)

Lemma feed_lookup (msgs : list ProgressMsg) (m : Model) (i : nat) (item : Item) :
  items m !! i = Some item ->
  exists item', items (feed m msgs) !! i = Some item' /\ URL item' = URL item /\
    (Forall (fun e => MsgError e = None) msgs -> Error item' = Error item).
Proof.
  revert m item. induction msgs as [|msg tl IH]; intros m item Hit.
  - exists item. auto.
  - simpl feed. change (fold_left update tl (update m msg)) with (feed (update m msg) tl).
    destruct (update_lookup m msg i item Hit) as (item1 & Hit1 & Hcase).
    destruct (IH _ _ Hit1) as (item' & Hit' & Hurl & Herr).
    exists item'. split; [exact Hit'|]. split.
    + rewrite Hurl. destruct Hcase as [-> | ->]; reflexivity.
    + intros Hall. apply Forall_cons in Hall as [He Hall]. rewrite (Herr Hall).
      destruct Hcase as [-> | ->]; [reflexivity|]. simpl. rewrite He. reflexivity.
Qed.

Lemma terminalCount_zero (ms : list ProgressMsg) :
  terminalCount ms = 0%nat -> Forall (fun e => isTerminal (MsgStatus e) = false) ms.
Proof.
  unfold terminalCount. induction ms as [|e tl IH]; intros H; [constructor|].
  simpl in H. destruct (isTerminal (MsgStatus e)) eqn:E; [discriminate|].
  constructor; [exact E | apply IH; exact H].
Qed.

(** X25. When the setup succeeded and the terminal message is the last
    message of the worker on the channel, applying the worker's messages
    to a model whose item has no error leaves the item, with its URL, in
    the state the exit status calls for: Completed at 100 percent with no
    error after a clean exit, Failed at 0 percent with the error
    "download failed" otherwise. *)
Theorem terminal_last_decides_item
    (id : Z) (p : Proc) (mvs : list Move) (w : Worker)
    (pre : list ProgressMsg) (t : ProgressMsg) (m : Model) (item : Item) :
  Download id p mvs = Some w ->
  setupErr p = None ->
  sent w = pre ++ [t] ->
  isTerminal (MsgStatus t) = true ->
  0 <= id ->
  items m !! Z.to_nat id = Some item ->
  Error item = None ->
  exists item',
    items (feed m (sent w)) !! Z.to_nat id = Some item' /\
    URL item' = URL item /\
    match WaitErr p with
    | None => ItemStatus item' = StatusCompleted /\ Progress item' = 100%float /\
              Error item' = None
    | Some _ => ItemStatus item' = StatusFailed /\ Progress item' = 0%float /\
                Error item' = Some "download failed"
    end.
Proof.
  intros Hr Hs Hsent Ht Hid Hit Herr.
  destruct (wrun_inv id p mvs _ w (winit_inv id p) Hr) as [_ _ Hterm _ _].
  destruct (wrun_shape id p mvs _ w (winit_shape id p) Hr) as [Hshape _ _ _ _ _].
  rewrite Hsent in *. rewrite terminalCount_snoc, Ht in Hterm.
  assert (Hpre : terminalCount pre = 0%nat) by (destruct (finished (pc w)); lia).
  apply terminalCount_zero in Hpre.
  apply Forall_app in Hshape as [Hshpre Hsht].
  apply Forall_cons in Hsht as [(Hidt & _ & Hsht) _]. rewrite Ht in Hsht.
  unfold terminalOf in Hsht. rewrite Hs in Hsht.
  assert (Hfree : Forall (fun e => MsgError e = None) pre).
  { rewrite List.Forall_forall in *. intros e He.
    destruct (Hshpre e He) as (_ & _ & Hsh). rewrite (Hpre e He) in Hsh. apply Hsh. }
  destruct (feed_lookup pre m _ item Hit) as (item1 & Hit1 & Hurl1 & Herr1).
  rewrite feed_snoc.
  assert (Hrange : inRange (feed m pre) t).
  { unfold inRange. rewrite Hidt. apply lookup_lt_Some in Hit1. lia. }
  exists (applyMsg t item1). split; [|split].
  - rewrite update_items by exact Hrange. rewrite Hidt, list_lookup_alter_eq, Hit1.
    reflexivity.
  - simpl. exact Hurl1.
  - destruct (WaitErr p); rewrite Hsht; simpl; repeat split.
    rewrite (Herr1 Hfree). exact Herr.
Qed.

Lemma terminal_last_decides_item_witness :
  let m := fst (Init (NewModel ["u"] exampleConfig 1)) in
  exists w item',
    Download 0 lateProgressProc (drainFirst lateProgressProc) = Some w /\
    items (feed m (sent w)) !! Z.to_nat 0 = Some item' /\
    URL item' = "u" /\ ItemStatus item' = StatusCompleted.
Proof.
  intros m.
  destruct (Download 0 lateProgressProc (drainFirst lateProgressProc)) as [w|] eqn:Hr;
    [|vm_compute in Hr; discriminate Hr].
  assert (Hsent : sent w =
    [startedMsg 0; mkMsg 0 StatusDownloading 0%float "My Song" None;
     mkMsg 0 StatusConverting 100%float "My Song" None;
     mkMsg 0 StatusDownloading 50%float "My Song" None] ++ [completedMsg 0 "My Song"]).
  { vm_compute in Hr. injection Hr as <-. reflexivity. }
  assert (Hid : 0 <= 0) by (vm_compute; discriminate).
  destruct (terminal_last_decides_item 0 lateProgressProc _ w _ _ m
              (mkItem "u" "" StatusPending 0%float None)
              Hr eq_refl Hsent eq_refl Hid eq_refl eq_refl)
    as (item' & Hit & Hurl & Hst & _).
  exists w, item'. split; [reflexivity|]. split; [exact Hit|]. split; assumption.
Defined.

(** ** The accounting of [activeCount] *)

Lemma update_active_step (m : Model) (msg : ProgressMsg) :
  Int.min_int < activeCount m <= parallel m ->
  parallel m <= Int.max_int ->
  let k := (if hits (length (items m)) StatusCompleted msg then 1 else 0) +
           (if hits (length (items m)) StatusFailed msg then 1 else 0) in
  activeCount (update m msg) = activeCount m - k + Z.of_nat (length (launches m msg)) /\
  Z.of_nat (length (launches m msg)) <= k.
Proof.
  intros Ha Hp k.
  assert (Hd : Int.decr (activeCount m) = activeCount m - 1) by (apply decr_small; lia).
  assert (Hterm : forall s, MsgStatus msg = s -> isTerminal s = true -> inRange m msg ->
            (s = StatusCompleted \/ s = StatusFailed) ->
            k = 1 ->
            activeCount (update m msg) = activeCount m - 1 + Z.of_nat (length (launches m msg)) /\
            Z.of_nat (length (launches m msg)) <= 1).
  { intros s Hs Ht Hr _ _. rewrite <- Hs in Ht.
    destruct (update_terminal_counts m msg Hr Ht) as (_ & _ & [[-> ->] | (Hlt & -> & l & ->)]).
    - simpl. lia.
    - rewrite Hd in *. rewrite incr_small by (unfold Int.min_int, Int.max_int in *; lia).
      simpl. lia. }
  subst k.
  destruct (hits (length (items m)) StatusCompleted msg) eqn:E1.
  - pose proof E1 as E1'. apply hits_inRange in E1' as [Hr Hs].
    assert (E2 : hits (length (items m)) StatusFailed msg = false).
    { apply not_true_iff_false. intros H. apply hits_inRange in H as [_ H]. congruence. }
    rewrite E2 in *. apply (Hterm StatusCompleted); auto.
  - destruct (hits (length (items m)) StatusFailed msg) eqn:E2.
    + pose proof E2 as E2'. apply hits_inRange in E2' as [Hr Hs].
      apply (Hterm StatusFailed); auto.
    + assert (Hno : ~ inRange m msg \/ isTerminal (MsgStatus msg) = false).
      { destruct (isTerminal (MsgStatus msg)) eqn:Ht; [|now right]. left. intros Hr.
        destruct (MsgStatus msg) eqn:Hs; try discriminate.
        - apply not_true_iff_false in E1. apply E1, hits_inRange. auto.
        - apply not_true_iff_false in E2. apply E2, hits_inRange. auto. }
      destruct Hno as [Hr | Ht].
      * rewrite update_out_of_range by exact Hr.
        unfold launches, handleProgress. rewrite range_check_true by (unfold inRange in Hr; lia).
        simpl. lia.
      * destruct (update_nonterminal m msg Ht) as (-> & _ & _ & _ & ->). simpl. lia.
Qed.

Lemma feed_active_accounting (msgs : list ProgressMsg) (m : Model) :
  Int.min_int + Z.of_nat (length msgs) < activeCount m <= parallel m ->
  parallel m <= Int.max_int ->
  let n := length (items m) in
  let terminals := countMsgs n StatusCompleted msgs + countMsgs n StatusFailed msgs in
  activeCount (feed m msgs) =
    activeCount m - terminals + Z.of_nat (length (launchLog m msgs)) /\
  Z.of_nat (length (launchLog m msgs)) <= terminals.
Proof.
  revert m. induction msgs as [|msg tl IH]; intros m Ha Hp n terminals.
  - subst terminals. unfold countMsgs. simpl. lia.
  - simpl feed. change (fold_left update tl (update m msg)) with (feed (update m msg) tl).
    rewrite length_cons, Nat2Z.inj_succ in Ha.
    destruct (update_active_step m msg ltac:(lia) Hp) as [Hstep Hle].
    pose proof (update_active_bounds m msg ltac:(lia) Hp) as Hb.
    destruct (update_fixed m msg) as (_ & Hpar & _).
    destruct (IH (update m msg)) as [Hfeed Hlog]; [rewrite Hpar; lia | rewrite Hpar; lia |].
    rewrite update_length in Hfeed, Hlog. fold n in Hfeed, Hlog, Hstep, Hle.
    subst terminals. rewrite !countMsgs_cons. cbn [launchLog].
    rewrite length_app, Nat2Z.inj_add. lia.
Qed.

(** X26. Along a run of fewer than 2^63 messages with a limit of at least
    0, [activeCount] is the number of downloads [handleProgress] has
    launched minus the number of in-range terminal messages applied, and
    at most one download is launched per terminal message: the counter
    never exceeds 0, since the launches of [Init] are not in it. *)
Theorem active_count_accounting
    (urls : list string) (cfg : Config) (par : Z) (msgs : list ProgressMsg) :
  0 <= par <= Int.max_int ->
  Z.of_nat (length msgs) < 2 ^ 63 ->
  let m0 := fst (Init (NewModel urls cfg par)) in
  let terminals := countMsgs (length urls) StatusCompleted msgs +
                   countMsgs (length urls) StatusFailed msgs in
  activeCount (runModel urls cfg par msgs) =
    Z.of_nat (length (launchLog m0 msgs)) - terminals /\
  Z.of_nat (length (launchLog m0 msgs)) <= terminals /\
  activeCount (runModel urls cfg par msgs) <= 0.
Proof.
  intros Hp Hn m0 terminals. unfold runModel. fold m0.
  destruct (feed_active_accounting msgs m0) as [Ha Hl];
    try (unfold m0, Init, NewModel; cbn [fst activeCount parallel];
         unfold Int.min_int, Int.max_int in *; lia).
  unfold m0, Init, NewModel in Ha, Hl. cbn [fst items activeCount] in Ha, Hl.
  rewrite length_map in Ha, Hl. fold terminals in Ha, Hl.
  unfold m0, Init, NewModel. cbn [fst]. lia.
Qed.

Lemma active_count_accounting_witness :
  let msgs := [startedMsg 0; completedMsg 0 ""; startedMsg 1; failedMsg 1 ""] in
  0 <= 1 <= Int.max_int /\ Z.of_nat (length msgs) < 2 ^ 63 /\
  activeCount (runModel ["A"; "B"] exampleConfig 1 msgs) <= 0.
Proof.
  intros msgs.
  assert (Hp : 0 <= 1 <= Int.max_int) by (vm_compute; split; discriminate).
  assert (Hn : Z.of_nat (length msgs) < 2 ^ 63) by reflexivity.
  split; [exact Hp|]. split; [exact Hn|].
  exact (proj2 (proj2 (active_count_accounting ["A"; "B"] exampleConfig 1 msgs Hp Hn))).
Defined.

(** ** Instances of the properties stated without a premise *)

Lemma extract_marker_and_converting_witness :
  hasExtractMarker "[ExtractAudio] Destination: /out/My_Song.mp3" /\
  In (Emit StatusConverting 100%float)
     (stdoutBody "[ExtractAudio] Destination: /out/My_Song.mp3").
Proof.
  assert (H : hasExtractMarker "[ExtractAudio] Destination: /out/My_Song.mp3")
    by (exists "", " Destination: /out/My_Song.mp3"; reflexivity).
  split; [exact H|].
  exact (proj2 (proj1 (extract_marker_and_converting
                         "[ExtractAudio] Destination: /out/My_Song.mp3")) H).
Defined.

Lemma displayTitle_bounded_witness :
  let item := mkItem "https://www.youtube.com/watch?v=dQw4w9WgXcQ&list=PL0123456789"
                     "" StatusPending 0%float None in
  Title item = "" /\
  exists r, displayTitle item = Some r /\ Z.of_nat (String.length r) <= 45 /\
            truncate (URL item) 45 = Some r.
Proof.
  intros item.
  assert (Ht : Title item = "") by reflexivity.
  split; [exact Ht|].
  destruct (displayTitle_bounded item) as (r & Hr & Hlen & Hurl & _).
  exists r. split; [exact Hr|]. split; [exact Hlen | exact (Hurl Ht)].
Defined.

Lemma viewWindow_shows_first_unfinished_witness :
  let m := runModel ["1"; "2"; "3"; "4"; "5"; "6"; "7"; "8"; "9"; "10"; "11"; "12"]
             exampleConfig 3
             [completedMsg 0 ""; completedMsg 1 ""; completedMsg 2 ""; failedMsg 3 ""] in
  maxItems < Z.of_nat (length (items m)) /\
  firstUnfinished (items m) 0 = Some 4 /\
  fst (viewWindow m) <= 4 < snd (viewWindow m).
Proof.
  intros m.
  assert (Hn : maxItems < Z.of_nat (length (items m))) by reflexivity.
  assert (Hf : firstUnfinished (items m) 0 = Some 4) by reflexivity.
  split; [exact Hn|]. split; [exact Hf|].
  exact (proj1 (proj2 (proj2 (proj2 (viewWindow_shows_first_unfinished m))) Hn 4 Hf)).
Defined.
